(** * llama_jni.cpp: UTF-8 reassembly, stop markers and the generation loop

    A shallow embedding of [app/src/main/cpp/llama/llama_jni.cpp] (the build
    with [LLAMA_CPP_AVAILABLE]).  A [std::string] is a [list byte]; the
    inference engine (llama.cpp) and the other threads that touch the
    atomics are oracles that answer each call the code makes. *)

From Equations Require Import Equations.
From Stdlib.Strings Require Import Byte String.
From Stdlib Require Import ZArith List Arith Lia Bool DecimalString Permutation.
Import ListNotations.

Set Default Goal Selector "!".
Unset Equations With Funext.

(** ** [std::string] as a list of bytes *)

Abbreviation bytes := (list byte).

Definition lit (s : string) : bytes := list_byte_of_string s.

(** The value of a byte as [unsigned char]. *)
Definition uchar (b : byte) : Z := Z.of_N (Byte.to_N b).

Module Str.

(** [s.substr(pos)] and [s.substr(0, n)], for [pos], [n] within [s]. *)
Definition substr_from (pos : nat) (s : bytes) : bytes := skipn pos s.
Definition substr_to (n : nat) (s : bytes) : bytes := firstn n s.

Fixpoint starts_with (pat s : bytes) : bool :=
  match pat, s with
  | [], _ => true
  | _ :: _, [] => false
  | p :: pat', c :: s' => Byte.eqb p c && starts_with pat' s'
  end.

(** [s.find(pat)]: the first position where [pat] occurs, [None] for
    [npos]. *)
Fixpoint find (pat s : bytes) : option nat :=
  if starts_with pat s then Some 0
  else match s with
       | [] => None
       | _ :: s' => option_map S (find pat s')
       end.

(** [s.rfind(pat)]: the last position where [pat] occurs. *)
Fixpoint rfind (pat s : bytes) : option nat :=
  match s with
  | [] => if starts_with pat [] then Some 0 else None
  | _ :: s' =>
      match rfind pat s' with
      | Some pos => Some (S pos)
      | None => if starts_with pat s then Some 0 else None
      end
  end.

Definition contains (pat s : bytes) : bool :=
  match find pat s with Some _ => true | None => false end.

Definition ends_with (suf s : bytes) : bool :=
  starts_with (rev suf) (rev s).

Definition empty (s : bytes) : bool :=
  match s with [] => true | _ :: _ => false end.

(** [s.c_str()] read as a C string: the bytes before the first NUL. *)
Fixpoint c_str (s : bytes) : bytes :=
  match s with
  | [] => []
  | c :: s' => if Byte.eqb c x00 then [] else c :: c_str s'
  end.

End Str.

(** ** [getValidUtf8Length] *)

(** [data[i]]; the scan only reads inside [data]. *)
Definition at_ (data : bytes) (i : nat) : byte := nth i data x00.

(** The classification of a first byte: [Some char_len], or [None] for
    the two branches that skip one byte (a continuation byte without a
    start, an invalid start byte). *)
Definition lead_len (c : Z) : option nat :=
  if (c <? 0x80)%Z then Some 1
  else if (Z.land c 0xE0 =? 0xC0)%Z then Some 2
  else if (Z.land c 0xF0 =? 0xE0)%Z then Some 3
  else if (Z.land c 0xF8 =? 0xF0)%Z then Some 4
  else None.

(** [(data[k] & 0xC0) == 0x80].  [data] is [const char*]; whether [char]
    is signed or not, the two bits kept by the mask are those of the
    unsigned value. *)
Definition is_cont (b : byte) : bool := (Z.land (uchar b) 0xC0 =? 0x80)%Z.

(** The inner [for (j = 1; j < char_len; j++)] loop, from [j] on with
    [n] rounds left. *)
Fixpoint conts_valid (data : bytes) (i j n : nat) : bool :=
  match n with
  | O => true
  | S n' => if is_cont (at_ data (i + j)) then conts_valid data i (S j) n'
            else false
  end.

(** What one round of the [while] loop decides at position [i]: skip one
    byte ([i++], by [continue] or after an invalid sequence), [break] on an
    incomplete character at the end, or accept a character. *)
Inductive verdict : Type :=
| Skip
| Incomplete
| Complete (char_len : nat).

Definition examine (data : bytes) (i : nat) : verdict :=
  match lead_len (uchar (at_ data i)) with
  | None => Skip
  | Some char_len =>
      if length data <? i + char_len then Incomplete
      else if conts_valid data i 1 (char_len - 1) then Complete char_len
      else Skip
  end.

(** The [while (i < len)] loop, from the state [(i, valid_len)]. *)
Equations? utf8_scan (data : bytes) (i valid_len : nat) : nat
  by wf (length data - i) lt :=
  utf8_scan data i valid_len with lt_dec i (length data) := {
    | right _ => valid_len
    | left _ with Logic.inspect (examine data i) := {
      | exist _ Skip _ => utf8_scan data (i + 1) valid_len
      | exist _ Incomplete _ => valid_len
      | exist _ (Complete char_len) _ =>
          utf8_scan data (i + char_len) (i + char_len) } }.
Proof.
  - lia.
  - match goal with H : examine _ _ = Complete _ |- _ =>
      unfold examine, lead_len in H;
      repeat match type of H with
             | context [if ?b then _ else _] => destruct b eqn:?
             end;
      try discriminate H; injection H as <-
    end.
    all: match goal with H : (_ <? _) = false |- _ =>
           apply Nat.ltb_ge in H end; lia.
Qed.

Definition getValidUtf8Length (data : bytes) : nat := utf8_scan data 0 0.

(** ** [makeValidUtf8] *)

(** [makeValidUtf8(input, incomplete_buffer)]: the string returned and the
    content of [incomplete_buffer] after the call. *)
Definition makeValidUtf8 (input incomplete_buffer : bytes) : bytes * bytes :=
  let combined := incomplete_buffer ++ input in
  if Str.empty combined then ([], [])
  else
    let valid_len := getValidUtf8Length combined in
    (Str.substr_to valid_len combined,
     if valid_len <? length combined then Str.substr_from valid_len combined
     else []).

(** The reassembler of the specification is this function with its
    buffer: a [push] is one call, which leaves the buffer for the next, and
    the [flush] at the end of the stream is the call with no new bytes. *)
Module Utf8Reassembler.

Definition push (new_bytes buffer : bytes) : bytes * bytes :=
  makeValidUtf8 new_bytes buffer.

Definition flush (buffer : bytes) : bytes := fst (makeValidUtf8 [] buffer).

(** The emissions of a sequence of pushes, and the buffer left. *)
Fixpoint push_all (chunks : list bytes) (buffer : bytes)
  : list bytes * bytes :=
  match chunks with
  | [] => ([], buffer)
  | c :: rest =>
      let '(emit_now, retained) := push c buffer in
      let '(later, final) := push_all rest retained in
      (emit_now :: later, final)
  end.

(** Everything emitted: the pushes, then the flush. *)
Definition emitted (chunks : list bytes) : bytes :=
  let '(emissions, final) := push_all chunks [] in
  concat emissions ++ flush final.

End Utf8Reassembler.

(** ** The session: the globals of the file *)

(** A non-null [llama_model*] or [llama_context*]. *)
Definition handle : Type := positive.

Record session : Type := {
  g_model : option handle;
  g_ctx : option handle;
  g_is_generating : bool;
  g_should_stop : bool }.

Definition nativeIsModelLoaded (s : session) : bool :=
  match g_model s, g_ctx s with
  | Some _, Some _ => true
  | _, _ => false
  end.

(** [nativeStopGeneration]; it may run on another thread while
    [nativeGenerate] runs. *)
Definition nativeStopGeneration (s : session) : session :=
  {| g_model := g_model s; g_ctx := g_ctx s;
     g_is_generating := g_is_generating s; g_should_stop := true |}.

(** ** [nativeLoadModel] *)

(** What llama.cpp and the platform answer during a load. *)
Record loader : Type := {
  llama_model_load_from_file : bytes -> Z -> option handle;
  llama_init_from_model : handle -> Z -> Z -> option handle;
  hardware_concurrency : Z }.

Inductive release : Type :=
| llama_free (ctx : handle)
| llama_model_free (model : handle).

Record load_outcome : Type := {
  load_ret : bool;
  load_after : session;
  load_released : list release;
  load_error : option bytes }.

(** The parameters the code derives from its arguments. *)
Definition n_gpu_layers (useGpu : bool) : Z := if useGpu then 99 else 0.
Definition ctx_size (nCtx : Z) : Z := if (nCtx >? 0)%Z then nCtx else 2048.
Definition thread_count (L : loader) (nThreads : Z) : Z :=
  if (nThreads >? 0)%Z then nThreads
  else Z.max 1 (hardware_concurrency L - 1).

(** The globals after the handles are set; the flags are not touched. *)
Definition with_handles (s : session) (model ctx : option handle) : session :=
  {| g_model := model; g_ctx := ctx;
     g_is_generating := g_is_generating s;
     g_should_stop := g_should_stop s |}.

Definition nativeLoadModel (L : loader) (s : session)
    (modelPath : bytes) (nCtx nThreads : Z) (useGpu : bool) : load_outcome :=
  (* Unload existing model if any *)
  let freed_ctx :=
    match g_ctx s with Some c => [llama_free c] | None => [] end in
  let freed_model :=
    match g_model s with Some m => [llama_model_free m] | None => [] end in
  match llama_model_load_from_file L modelPath (n_gpu_layers useGpu) with
  | None =>
      {| load_ret := false;
         load_after := with_handles s None None;
         load_released := freed_ctx ++ freed_model;
         load_error := Some (lit "Failed to load model") |}
  | Some model =>
      match llama_init_from_model L model (ctx_size nCtx)
              (thread_count L nThreads) with
      | None =>
          {| load_ret := false;
             load_after := with_handles s None None;
             load_released :=
               freed_ctx ++ freed_model ++ [llama_model_free model];
             load_error := Some (lit "Failed to create context") |}
      | Some ctx =>
          {| load_ret := true;
             load_after := with_handles s (Some model) (Some ctx);
             load_released := freed_ctx ++ freed_model;
             load_error := None |}
      end
  end.

(** ** [nativeGenerate] *)

(** What one round of the sampling loop gets from llama.cpp: the sampled
    token is an end-of-generation token; or [llama_token_to_piece] fails
    ([n < 0]); or the token has a text, and [decoded] tells whether the
    [llama_decode] of that token, if the round reaches it, returns 0. *)
Inductive sampled : Type :=
| Eog
| PieceFailed
| Piece (piece : bytes) (decoded : bool).

(** The engine and the other threads, as seen by one call: the count
    [llama_tokenize] returns for the prompt, the code [llama_decode]
    returns for the prompt batch, the value of the atomic [g_should_stop]
    read at the head of round [i] (true when another thread has run
    [nativeStopGeneration] or [nativeUnloadModel] since the call cleared
    the flag), and what round [i] samples.  The prompt, the temperature
    and [topP] only reach the code through these answers. *)
Record engine : Type := {
  llama_tokenize : Z;
  prompt_decode : Z;
  should_stop_at : nat -> bool;
  sample_at : nat -> sampled }.

Definition im_end : bytes := Eval cbv in lit "<|im_end|>".
Definition im_end_partial : bytes := Eval cbv in lit "<|im_end".
Definition im_start : bytes := Eval cbv in lit "<|im_start|>".
Definition im_start_partial : bytes := Eval cbv in lit "<|im_start".
Definition im_fragment : bytes := Eval cbv in lit "<|im_".

Definition error_no_model : bytes := Eval cbv in lit "[Error: No model loaded]".
Definition error_tokenization : bytes :=
  Eval cbv in lit "[Error: Tokenization failed]".
Definition error_prompt : bytes :=
  Eval cbv in lit "[Error: Prompt evaluation failed]".

(** The locals of the loop, the texts handed to [onToken] (oldest first)
    and the number of calls of [llama_sampler_sample]. *)
Record gen_state : Type := {
  result : bytes;
  recent_output : bytes;
  utf8_buffer : bytes;
  pending_output : bytes;
  sink : list bytes;
  samples : nat }.

Definition gen_init : gen_state :=
  {| result := []; recent_output := []; utf8_buffer := [];
     pending_output := []; sink := []; samples := 0 |}.

(** [pos = result.rfind(pat); if (pos != npos) result = result.substr(0, pos)]. *)
Definition cut_at_last (pat result : bytes) : bytes :=
  match Str.rfind pat result with
  | Some pos => Str.substr_to pos result
  | None => result
  end.

(** [recent_output += piece], kept to its last 50 bytes. *)
Definition push_recent (recent piece : bytes) : bytes :=
  let recent := recent ++ piece in
  if 50 <? length recent then Str.substr_from (length recent - 50) recent
  else recent.

(** [env->NewStringUTF(text.c_str())] followed by [onToken]: the callback
    gets the text up to its first NUL.  [NewStringUTF] is taken to
    succeed. *)
Definition call_sink (text : bytes) (sink : list bytes) : list bytes :=
  sink ++ [Str.c_str text].

(** One round whose token has the text [piece], up to the call of
    [onToken]; the boolean tells whether the round left the loop at
    [if (should_stop) break]. *)
Definition round_piece (callback : bool) (piece : bytes) (st : gen_state)
  : gen_state * bool :=
  let recent := push_recent (recent_output st) piece in
  let hit_end := Str.contains im_end recent in
  let result1 :=
    if hit_end then cut_at_last im_end_partial (cut_at_last im_end (result st))
    else result st in
  let hit_start := Str.contains im_start recent in
  let result2 :=
    if hit_start
    then cut_at_last im_start_partial (cut_at_last im_start result1)
    else result1 in
  if hit_end || hit_start then
    ({| result := result2; recent_output := recent;
        utf8_buffer := utf8_buffer st; pending_output := pending_output st;
        sink := sink st; samples := samples st |}, true)
  else
    let result3 := result2 ++ piece in
    let pending := pending_output st ++ piece in
    if callback then
      let '(valid_output, buffer) := makeValidUtf8 pending (utf8_buffer st) in
      if negb (Str.empty valid_output) then
        ({| result := result3; recent_output := recent;
            utf8_buffer := buffer; pending_output := [];
            sink := call_sink valid_output (sink st);
            samples := samples st |}, false)
      else
        ({| result := result3; recent_output := recent;
            utf8_buffer := buffer; pending_output := pending;
            sink := sink st; samples := samples st |}, false)
    else
      ({| result := result3; recent_output := recent;
          utf8_buffer := utf8_buffer st; pending_output := pending;
          sink := sink st; samples := samples st |}, false).

Definition sampled_one (st : gen_state) : gen_state :=
  {| result := result st; recent_output := recent_output st;
     utf8_buffer := utf8_buffer st; pending_output := pending_output st;
     sink := sink st; samples := S (samples st) |}.

(** [for (int i = 0; i < max_gen && !g_should_stop; i++)], from round [i]
    with [left] rounds to [max_gen]. *)
Fixpoint sampling_loop (E : engine) (callback : bool) (left i : nat)
    (st : gen_state) : gen_state :=
  match left with
  | O => st
  | S left' =>
      if should_stop_at E i then st
      else
        let st := sampled_one st in
        match sample_at E i with
        | Eog => st
        | PieceFailed => st
        | Piece piece decoded =>
            let '(st', stop) := round_piece callback piece st in
            if stop then st'
            else if decoded then sampling_loop E callback left' (S i) st'
            else st'
        end
  end.

(** "Flush any remaining pending output to callback". *)
Definition flush_pending (callback : bool) (st : gen_state) : list bytes :=
  if callback && negb (Str.empty (pending_output st)) then
    let remaining_valid := fst (makeValidUtf8 (pending_output st) (utf8_buffer st)) in
    if negb (Str.empty remaining_valid) then call_sink remaining_valid (sink st)
    else sink st
  else sink st.

(** [while ((pos = result.find("<|im_")) != npos) result = result.substr(0, pos)]. *)
Equations? final_cleanup (result : bytes) : bytes by wf (length result) lt :=
  final_cleanup result with Logic.inspect (Str.find im_fragment result) := {
    | exist _ (Some pos) _ => final_cleanup (Str.substr_to pos result)
    | exist _ None _ => result }.
Proof.
  assert (B : forall s p, Str.find im_fragment s = Some p -> p < length s).
  { clear. induction s as [|c s IH]; intros p; [discriminate|].
    cbn [Str.find]. destruct (Str.starts_with _ _); [intros [= <-]; simpl; lia|].
    destruct (Str.find _ s) as [q|]; [|discriminate].
    intros [= <-]. specialize (IH q eq_refl). simpl. lia. }
  match goal with H : _ = Some _ |- _ => apply B in H end.
  unfold Str.substr_to. rewrite length_firstn. lia.
Qed.

(** What the call leaves to its caller: the string made into the [jstring]
    it returns, the texts [onToken] got, the number of tokens sampled and
    the globals. *)
Record outcome : Type := {
  returned : bytes;
  delivered : list bytes;
  sampled_tokens : nat;
  after : session }.

Definition max_gen (maxTokens : Z) : Z :=
  if (maxTokens >? 0)%Z then maxTokens else 512%Z.

(** The end of the call once the loop has left [st]. *)
Definition finish (callback : bool) (st : gen_state) : bytes * list bytes :=
  let delivered := flush_pending callback st in
  let valid_result := fst (makeValidUtf8 (final_cleanup (result st)) []) in
  (Str.c_str valid_result, delivered).

(** [callback] tells whether [callback != nullptr] and [onToken] was
    found.  [g_should_stop] after the call is what the next read of the
    flag finds. *)
Definition nativeGenerate (E : engine) (s : session) (maxTokens : Z)
    (callback : bool) : outcome :=
  if negb (nativeIsModelLoaded s) then
    (* !g_model || !g_ctx *)
    {| returned := error_no_model; delivered := []; sampled_tokens := 0;
       after := s |}
  else
    let idle := {| g_model := g_model s; g_ctx := g_ctx s;
                   g_is_generating := false; g_should_stop := false |} in
    if (llama_tokenize E <? 0)%Z then
      {| returned := error_tokenization; delivered := [];
         sampled_tokens := 0; after := idle |}
    else if negb (prompt_decode E =? 0)%Z then
      {| returned := error_prompt; delivered := []; sampled_tokens := 0;
         after := idle |}
    else
      let st := sampling_loop E callback (Z.to_nat (max_gen maxTokens)) 0
                  gen_init in
      let '(text, delivered) := finish callback st in
      {| returned := text; delivered := delivered;
         sampled_tokens := samples st;
         after := {| g_model := g_model s; g_ctx := g_ctx s;
                     g_is_generating := false;
                     g_should_stop := should_stop_at E (samples st) |} |}.

(** A scripted engine for examples: the prompt tokenizes and evaluates,
    nobody asks to stop, round [i] samples the [i]-th entry and every later
    round an end-of-generation token. *)
Definition scripted (tokens : list sampled) : engine :=
  {| llama_tokenize := 1; prompt_decode := 0;
     should_stop_at := fun _ => false;
     sample_at := fun i => nth i tokens Eog |}.

Definition loaded_session : session :=
  {| g_model := Some 1%positive; g_ctx := Some 2%positive;
     g_is_generating := false; g_should_stop := false |}.

Definition empty_session : session :=
  {| g_model := None; g_ctx := None;
     g_is_generating := false; g_should_stop := false |}.

(** A loader whose model file parses and whose context cannot be made. *)
Definition no_context_loader : loader :=
  {| llama_model_load_from_file := fun _ _ => Some 7%positive;
     llama_init_from_model := fun _ _ _ => None;
     hardware_concurrency := 8 |}.

(** An engine that samples "a" for ever. *)
Definition endless : engine :=
  {| llama_tokenize := 1; prompt_decode := 0;
     should_stop_at := fun _ => false;
     sample_at := fun _ => Piece (lit "a") true |}.

(** The proper prefixes of a marker that hold the whole of ["<|im_"]. *)
Definition partial_starts (marker : bytes) : list bytes :=
  map (fun k => firstn k marker) (seq 5 (length marker - 5)).

(** ** Well-formed UTF-8, in the words of the specification

    "A sequence of complete, well-formed UTF-8 code points": each code
    point is one ASCII byte, or a lead byte of a 2, 3 or 4 byte sequence
    followed by that many continuation bytes less one.  [need] counts the
    continuation bytes still due.  (Overlong forms, surrogates and code
    points past U+10FFFF pass this test; a string that fails it is not
    UTF-8 under the stricter reading either.) *)
Fixpoint well_formed_from (need : nat) (s : bytes) : bool :=
  match s with
  | [] => need =? 0
  | b :: s' =>
      match need with
      | O => match lead_len (uchar b) with
             | Some n => well_formed_from (n - 1) s'
             | None => false
             end
      | S k => is_cont b && well_formed_from k s'
      end
  end.

Definition well_formed_utf8 (s : bytes) : bool := well_formed_from 0 s.

Definition is_ascii (b : byte) : bool := (uchar b <? 0x80)%Z.

(** An ASCII byte other than NUL. *)
Definition plain (b : byte) : bool := is_ascii b && negb (Byte.eqb b x00).

Definition lt_sign : bytes := Eval cbv in lit "<".
Definition hi_there : bytes := Eval cbv in lit "Hi there!".

(** The state of the loop after rounds that streamed the text [R], made
    of plain bytes, whole. *)
Definition streamed (callback : bool) (R : bytes) (st : gen_state) : Prop :=
  result st = R /\
  (exists n, n <= length R /\ recent_output st = skipn n R) /\
  utf8_buffer st = [] /\
  pending_output st = (if callback then [] else R) /\
  concat (sink st) = (if callback then R else []) /\
  Forall (fun t => Str.contains lt_sign t = false) (sink st).

(** "The valid-UTF-8-decodable prefix": the longest prefix that is
    well-formed. *)
Definition decodable_prefix (s : bytes) : bytes :=
  match find (fun n => well_formed_utf8 (firstn n s))
             (rev (seq 0 (S (length s)))) with
  | Some n => firstn n s
  | None => []
  end.

(** ** [nativeUnloadModel] *)

(** [while (g_is_generating) sleep_for(10ms)]: [is_generating_at n] is
    what the [n]-th read of the atomic finds; the result is the number of
    sleeps, [None] when the flag is still up after [fuel] reads. *)
Fixpoint wait_while_generating (is_generating_at : nat -> bool)
    (fuel n : nat) : option nat :=
  match fuel with
  | O => None
  | S fuel' =>
      if is_generating_at n
      then wait_while_generating is_generating_at fuel' (S n)
      else Some n
  end.

Record unload_outcome : Type := {
  unload_after : session;
  unload_released : list release;
  unload_sleeps : nat }.

Definition nativeUnloadModel (is_generating_at : nat -> bool) (fuel : nat)
    (s : session) : option unload_outcome :=
  (* g_should_stop = true *)
  match wait_while_generating is_generating_at fuel 0 with
  | None => None
  | Some sleeps =>
      Some {| unload_after :=
                {| g_model := None; g_ctx := None;
                   g_is_generating := false; g_should_stop := true |};
              unload_released :=
                match g_ctx s with Some c => [llama_free c] | None => [] end
                ++ match g_model s with
                   | Some m => [llama_model_free m]
                   | None => []
                   end;
              unload_sleeps := sleeps |}
  end.

(** ** [nativeGetModelInfo] and [nativeGetMemoryUsage] *)

(** What llama.cpp answers about a model and a context: the C string
    [llama_model_desc] leaves in [model_desc], and the counts. *)
Record model_facts : Type := {
  llama_model_desc : handle -> bytes;
  llama_model_n_params : handle -> Z;
  llama_n_ctx : handle -> Z;
  llama_vocab_n_tokens : handle -> Z;
  llama_state_get_size : handle -> Z }.

(** [std::to_string] of an integer. *)
Definition to_string (n : Z) : bytes :=
  lit (NilZero.string_of_int (Z.to_int n)).

(** The text between two double quotes, as the literals of the source
    spell it. *)
Definition quoted (text : bytes) : bytes := [x22] ++ text ++ [x22].

(** [None] stands for the call [llama_n_ctx(g_ctx)] on a null [g_ctx],
    which the function does not guard against. *)
Definition nativeGetModelInfo (F : model_facts) (s : session) : option bytes :=
  match g_model s with
  | None => Some (Str.c_str (lit "{}"))
  | Some model =>
      match g_ctx s with
      | None => None
      | Some ctx =>
          let info :=
            lit "{"
            ++ (quoted (lit "description") ++ lit ":"
                ++ quoted (Str.c_str (llama_model_desc F model)) ++ lit ",")
            ++ (quoted (lit "n_params") ++ lit ":"
                ++ to_string (llama_model_n_params F model) ++ lit ",")
            ++ (quoted (lit "n_ctx") ++ lit ":"
                ++ to_string (llama_n_ctx F ctx) ++ lit ",")
            ++ (quoted (lit "n_vocab") ++ lit ":"
                ++ to_string (llama_vocab_n_tokens F model))
            ++ lit "}" in
          Some (Str.c_str info)
      end
  end.

(** [(jlong)] of a [size_t]: the value taken modulo 2^64 and read as a
    signed 64-bit integer. *)
Definition to_jlong (n : Z) : Z := ((n + 2 ^ 63) mod 2 ^ 64 - 2 ^ 63)%Z.

Definition nativeGetMemoryUsage (F : model_facts) (s : session) : Z :=
  match g_ctx s with
  | None => 0
  | Some ctx => to_jlong (llama_state_get_size F ctx)
  end.

(** ** The text a run samples *)

(** The text of the token of round [i]; empty when the round has none. *)
Definition piece_at (E : engine) (i : nat) : bytes :=
  match sample_at E i with
  | Piece piece _ => piece
  | Eog | PieceFailed => []
  end.

(** The pieces of the rounds before [k], in order. *)
Definition sampled_text (E : engine) (k : nat) : bytes :=
  concat (map (piece_at E) (seq 0 k)).

Definition no_nul (s : bytes) : bool :=
  forallb (fun b => negb (Byte.eqb b x00)) s.

(** ** Calls made one after the other *)

Inductive resource : Type :=
| Model (h : handle)
| Context (h : handle).

Definition held (s : session) : list resource :=
  match g_ctx s with Some c => [Context c] | None => [] end
  ++ match g_model s with Some m => [Model m] | None => [] end.

Definition freed (r : release) : resource :=
  match r with
  | llama_free c => Context c
  | llama_model_free m => Model m
  end.

(** What a load gets from llama.cpp: the model when the file parses, and
    the context when it can be made. *)
Definition load_obtained (L : loader) (modelPath : bytes)
    (nCtx nThreads : Z) (useGpu : bool) : list resource :=
  match llama_model_load_from_file L modelPath (n_gpu_layers useGpu) with
  | None => []
  | Some model =>
      Model model ::
      match llama_init_from_model L model (ctx_size nCtx)
              (thread_count L nThreads) with
      | None => []
      | Some ctx => [Context ctx]
      end
  end.

Inductive call : Type :=
| Load (L : loader) (modelPath : bytes) (nCtx nThreads : Z) (useGpu : bool)
| Unload
| Generate (E : engine) (maxTokens : Z) (callback : bool)
| StopGeneration.

(** The globals, and what was obtained from llama.cpp and given back to
    it so far. *)
Record history : Type := {
  now : session;
  obtained : list resource;
  released : list release }.

Definition fresh : history :=
  {| now := empty_session; obtained := []; released := [] |}.

(** One call on the thread that makes them all: no other thread writes
    the flags, so the wait of an unload reads [g_is_generating] as the
    globals have it, and does not return when it is up. *)
Definition after_call (c : call) (h : history) : option history :=
  match c with
  | Load L modelPath nCtx nThreads useGpu =>
      let o := nativeLoadModel L (now h) modelPath nCtx nThreads useGpu in
      Some {| now := load_after o;
              obtained := obtained h
                          ++ load_obtained L modelPath nCtx nThreads useGpu;
              released := released h ++ load_released o |}
  | Unload =>
      match nativeUnloadModel (fun _ => g_is_generating (now h)) 1 (now h) with
      | None => None
      | Some o =>
          Some {| now := unload_after o; obtained := obtained h;
                  released := released h ++ unload_released o |}
      end
  | Generate E maxTokens callback =>
      Some {| now := after (nativeGenerate E (now h) maxTokens callback);
              obtained := obtained h; released := released h |}
  | StopGeneration =>
      Some {| now := nativeStopGeneration (now h);
              obtained := obtained h; released := released h |}
  end.

Fixpoint after_calls (cs : list call) (h : history) : option history :=
  match cs with
  | [] => Some h
  | c :: cs' =>
      match after_call c h with
      | None => None
      | Some h' => after_calls cs' h'
      end
  end.

(** A lead byte followed by fewer bytes than it announces. *)
Definition incomplete_start (t : bytes) : bool :=
  match t with
  | [] => false
  | c :: _ =>
      match lead_len (uchar c) with
      | Some n => length t <? n
      | None => false
      end
  end.

(** Two states of the loop that differ at most in what concerns the
    callback. *)
Definition same_text (st1 st2 : gen_state) : Prop :=
  result st1 = result st2 /\ recent_output st1 = recent_output st2 /\
  samples st1 = samples st2.

(** An engine whose prompt does not tokenize, and one whose prompt does
    not evaluate. *)
Definition untokenizable : engine :=
  {| llama_tokenize := -1; prompt_decode := 0;
     should_stop_at := fun _ => false;
     sample_at := fun _ => Piece (lit "a") true |}.

Definition unevaluable : engine :=
  {| llama_tokenize := 4; prompt_decode := 1;
     should_stop_at := fun _ => false;
     sample_at := fun _ => Piece (lit "a") true |}.

(** A round after which the loop does not go on: its token ends the
    generation, or has no piece, or its decode fails. *)
Definition last_round (E : engine) (i : nat) : bool :=
  match sample_at E i with
  | Eog | PieceFailed => true
  | Piece _ decoded => negb decoded
  end.

(** An engine whose third token cannot be decoded. *)
Definition failing_decode : engine :=
  {| llama_tokenize := 2; prompt_decode := 0;
     should_stop_at := fun _ => false;
     sample_at := fun i => Piece (lit "ab") (negb (i =? 2)) |}.

Definition pending_count (st : gen_state) : nat :=
  if Str.empty (pending_output st) then 0 else 1.

(** The last 50 bytes of a text, all of it when it is shorter. *)
Definition last50 (text : bytes) : bytes := skipn (length text - 50) text.

(** The state of the loop before round [i] when every piece so far was
    well-formed on its own and had no NUL: nothing is held back. *)
Definition tidy (E : engine) (i : nat) (st : gen_state) : Prop :=
  result st = sampled_text E i /\
  utf8_buffer st = [] /\ pending_output st = [] /\
  concat (sink st) = sampled_text E i /\
  Forall (fun t => well_formed_utf8 t = true /\ t <> []) (sink st) /\
  samples st = i.

(** The state of the loop before round [i] when no marker is whole in
    the text so far. *)
Definition watching (E : engine) (i : nat) (st : gen_state) : Prop :=
  recent_output st = last50 (sampled_text E i) /\
  Str.contains im_end (sampled_text E i) = false /\
  Str.contains im_start (sampled_text E i) = false /\
  samples st = i.

(** A loader that gives the model 11 and the context 12. *)
Definition good_loader : loader :=
  {| llama_model_load_from_file := fun _ _ => Some 11%positive;
     llama_init_from_model := fun _ _ _ => Some 12%positive;
     hardware_concurrency := 0 |}.

Definition demo_facts : model_facts :=
  {| llama_model_desc := fun _ => lit "qwen2 0.5B Q4_K";
     llama_model_n_params := fun _ => 494032768%Z;
     llama_n_ctx := fun _ => 2048%Z;
     llama_vocab_n_tokens := fun _ => 151936%Z;
     llama_state_get_size := fun _ => 1000%Z |}.

(** A marker split over two short pieces, with more tokens to come. *)
Definition marker_in_two : engine :=
  scripted [Piece (lit "Hi<|im") true; Piece (lit "_end|>and") true;
            Piece (lit " more") true].

(** The globals as calls made one after the other leave them: the
    session is not generating, and the two handles are set or null
    together. *)
Definition settled (s : session) : Prop :=
  g_is_generating s = false /\
  (g_model s = None <-> g_ctx s = None).

(** Two loaders that answer alike whenever the context size asked for is
    positive, the thread count at least one and the GPU layers 0 or 99. *)
Definition agree_on_sane_requests (L L' : loader) : Prop :=
  hardware_concurrency L = hardware_concurrency L' /\
  (forall path layers,
      layers = 0%Z \/ layers = 99%Z ->
      llama_model_load_from_file L path layers
      = llama_model_load_from_file L' path layers) /\
  (forall model n_ctx n_threads,
      (0 < n_ctx)%Z -> (1 <= n_threads)%Z ->
      llama_init_from_model L model n_ctx n_threads
      = llama_init_from_model L' model n_ctx n_threads).

(** A loader that differs from [good_loader] only on requests the code
    never makes. *)
Definition odd_loader : loader :=
  {| llama_model_load_from_file :=
       fun _ layers => if (layers =? 5)%Z then None else Some 11%positive;
     llama_init_from_model :=
       fun _ n_ctx n_threads =>
         if (n_ctx <=? 0)%Z || (n_threads <=? 0)%Z then None
         else Some 12%positive;
     hardware_concurrency := 0 |}.

(** ** A stop request from another thread

    Where a call of [nativeStopGeneration] by another thread can fall in
    a call of [nativeGenerate] that goes past its first test: after the
    store of line 273 ([g_is_generating = true]) and before the store of
    line 274 ([g_should_stop = false]); or after that store and before the
    read of [g_should_stop] at the head of round [i], since the read
    before it.  The stores and the reads are those of one atomic. *)
Inductive stop_point : Type :=
| BeforeClear
| BeforeRead (i : nat).

(** The other thread at one point: it calls [nativeStopGeneration] there
    or it does nothing. *)
Definition other_thread (requests : stop_point -> bool) (p : stop_point)
    (s : session) : session :=
  if requests p then nativeStopGeneration s else s.

(** Line 273. *)
Definition raise_generating (s : session) : session :=
  {| g_model := g_model s; g_ctx := g_ctx s;
     g_is_generating := true; g_should_stop := g_should_stop s |}.

(** Line 274. *)
Definition clear_should_stop (s : session) : session :=
  {| g_model := g_model s; g_ctx := g_ctx s;
     g_is_generating := g_is_generating s; g_should_stop := false |}.

(** The globals when the head of round [i] reads the flag: the rounds
    themselves store nothing in them. *)
Fixpoint globals_at_read (requests : stop_point -> bool) (s : session)
    (i : nat) : session :=
  match i with
  | O =>
      other_thread requests (BeforeRead 0)
        (clear_should_stop
           (other_thread requests BeforeClear (raise_generating s)))
  | S j => other_thread requests (BeforeRead (S j))
             (globals_at_read requests s j)
  end.

(** The engine [E] for a call on the globals [s] beside that thread:
    each read of the flag finds what the globals hold then. *)
Definition beside (requests : stop_point -> bool) (s : session)
    (E : engine) : engine :=
  {| llama_tokenize := llama_tokenize E; prompt_decode := prompt_decode E;
     should_stop_at := fun i => g_should_stop (globals_at_read requests s i);
     sample_at := sample_at E |}.

Definition no_request : stop_point -> bool := fun _ => false.

(** One request before the flag is cleared, and one while the second
    round runs. *)
Definition early_and_second_round : stop_point -> bool :=
  fun p => match p with
           | BeforeClear => true
           | BeforeRead i => i =? 2
           end.

Definition only_before_clear : stop_point -> bool :=
  fun p => match p with
           | BeforeClear => true
           | BeforeRead _ => false
           end.

Definition during_first_round : stop_point -> bool :=
  fun p => match p with
           | BeforeClear => false
           | BeforeRead i => i =? 1
           end.

(** * Properties *)

(** ** Strings *)

Lemma starts_with_length pat s :
  Str.starts_with pat s = true -> length pat <= length s.
Proof.
  revert s. induction pat as [|p pat IH]; intros [|c s]; simpl;
    try lia; try discriminate.
  intros [_ P]%andb_prop. apply IH in P. lia.
Qed.

Lemma find_bound pat s pos :
  Str.find pat s = Some pos -> pos + length pat <= length s.
Proof.
  revert pos. induction s as [|c s IH]; intros pos.
  - simpl. destruct (Str.starts_with pat []) eqn:P; [|discriminate].
    intros [= <-]. apply starts_with_length in P. simpl in *. lia.
  - cbn [Str.find]. destruct (Str.starts_with pat (c :: s)) eqn:P.
    + intros [= <-]. apply starts_with_length in P. simpl in *. lia.
    + destruct (Str.find pat s) as [q|]; [|discriminate].
      intros [= <-]. specialize (IH q eq_refl). simpl. lia.
Qed.

Lemma starts_with_spec pat s :
  Str.starts_with pat s = true <-> exists post, s = pat ++ post.
Proof.
  revert s. induction pat as [|p pat IH]; intros s; simpl.
  - split; [intros _; now exists s | reflexivity].
  - destruct s as [|c s].
    + split; [discriminate | intros [post [=]]].
    + rewrite andb_true_iff, IH. split.
      * intros [Hpc [post ->]]. apply Byte.byte_dec_bl in Hpc as ->.
        now exists post.
      * intros [post [= -> ->]]. split; [apply Byte.byte_dec_lb; reflexivity|].
        now exists post.
Qed.

Lemma find_some pat s pos :
  Str.find pat s = Some pos ->
  exists post, skipn pos s = pat ++ post /\ pos <= length s.
Proof.
  revert pos. induction s as [|c s IH]; intros pos.
  - simpl. destruct (Str.starts_with pat []) eqn:P; [|discriminate].
    intros [= <-]. apply starts_with_spec in P as [post P].
    exists post. simpl. split; [exact P | lia].
  - cbn [Str.find]. destruct (Str.starts_with pat (c :: s)) eqn:P.
    + intros [= <-]. apply starts_with_spec in P as [post P].
      exists post. simpl. split; [exact P | lia].
    + destruct (Str.find pat s) as [q|]; [|discriminate].
      intros [= <-]. destruct (IH q eq_refl) as [post [Hq Hl]].
      exists post. simpl. split; [exact Hq | lia].
Qed.

Lemma find_none pat s :
  Str.find pat s = None -> forall pre post, s <> pre ++ pat ++ post.
Proof.
  induction s as [|c s IH].
  - simpl. destruct (Str.starts_with pat []) eqn:P; [discriminate|].
    intros _ pre post E. symmetry in E.
    apply app_eq_nil in E as [-> [-> ->]%app_eq_nil]. discriminate.
  - cbn [Str.find]. destruct (Str.starts_with pat (c :: s)) eqn:P;
      [discriminate|].
    destruct (Str.find pat s) as [q|] eqn:F; [discriminate|].
    intros _ [|d pre] post E; simpl in E.
    + assert (Str.starts_with pat (c :: s) = true) as Q
        by (apply starts_with_spec; now exists post).
      congruence.
    + injection E as _ E. exact (IH eq_refl pre post E).
Qed.

Lemma contains_spec pat s :
  Str.contains pat s = true <-> exists pre post, s = pre ++ pat ++ post.
Proof.
  unfold Str.contains. split.
  - destruct (Str.find pat s) as [pos|] eqn:F; [|discriminate].
    intros _. apply find_some in F as [post [F _]].
    exists (firstn pos s), post. rewrite <- F. symmetry. apply firstn_skipn.
  - intros [pre [post E]]. destruct (Str.find pat s) eqn:F; [reflexivity|].
    exfalso. exact (find_none _ _ F _ _ E).
Qed.

Lemma contains_false pat s :
  Str.contains pat s = false <-> forall pre post, s <> pre ++ pat ++ post.
Proof.
  split.
  - intros C pre post E.
    assert (Str.contains pat s = true) by (apply contains_spec; eauto).
    congruence.
  - intros N. destruct (Str.contains pat s) eqn:C; [|reflexivity].
    apply contains_spec in C as [pre [post E]]. now destruct (N pre post).
Qed.

Lemma ends_with_spec suf s :
  Str.ends_with suf s = true <-> exists pre, s = pre ++ suf.
Proof.
  unfold Str.ends_with. rewrite starts_with_spec. split.
  - intros [post E]. exists (rev post).
    rewrite <- (rev_involutive s), E, rev_app_distr, rev_involutive.
    reflexivity.
  - intros [pre ->]. exists (rev pre). apply rev_app_distr.
Qed.

(** A prefix of a string holds no pattern the string does not hold. *)
Lemma contains_firstn pat s n :
  Str.contains pat s = false -> Str.contains pat (firstn n s) = false.
Proof.
  rewrite !contains_false. intros N pre post E.
  apply (N pre (post ++ skipn n s)).
  rewrite <- (firstn_skipn n s) at 1. rewrite E, <- !app_assoc.
  reflexivity.
Qed.

(** A pattern that extends [pat] is found only where [pat] is. *)
Lemma contains_longer pat more s :
  Str.contains pat s = false -> Str.contains (pat ++ more) s = false.
Proof.
  rewrite !contains_false. intros N pre post E.
  apply (N pre (more ++ post)). rewrite E, <- !app_assoc. reflexivity.
Qed.

Lemma ends_with_contains pat more s :
  Str.contains pat s = false -> Str.ends_with (pat ++ more) s = false.
Proof.
  intros N. destruct (Str.ends_with _ s) eqn:W; [|reflexivity].
  apply ends_with_spec in W as [pre ->].
  rewrite contains_false in N. destruct (N pre more). reflexivity.
Qed.

Lemma c_str_firstn s : exists n, Str.c_str s = firstn n s.
Proof.
  induction s as [|c s [n IH]]; [now exists 0|]. simpl.
  destruct (Byte.eqb c x00); [now exists 0|].
  exists (S n). simpl. now rewrite IH.
Qed.

Lemma contains_skipn pat s n :
  Str.contains pat s = false -> Str.contains pat (skipn n s) = false.
Proof.
  rewrite !contains_false. intros N pre post E.
  apply (N (firstn n s ++ pre) post).
  rewrite <- (firstn_skipn n s) at 1. rewrite E, <- !app_assoc. reflexivity.
Qed.

Lemma contains_app_l pat a b :
  Str.contains pat (a ++ b) = false -> Str.contains pat a = false.
Proof.
  rewrite !contains_false. intros N pre post E.
  apply (N pre (post ++ b)). rewrite E, <- !app_assoc. reflexivity.
Qed.

Lemma contains_app_r pat a b :
  Str.contains pat (a ++ b) = false -> Str.contains pat b = false.
Proof.
  rewrite !contains_false. intros N pre post E.
  apply (N (a ++ pre) post). rewrite E, <- !app_assoc. reflexivity.
Qed.

Lemma rfind_some pat s pos :
  Str.rfind pat s = Some pos -> exists post, skipn pos s = pat ++ post.
Proof.
  revert pos. induction s as [|c s IH]; intros pos; simpl.
  - destruct (Str.starts_with pat []) eqn:P; [|discriminate].
    intros [= <-]. apply starts_with_spec in P. exact P.
  - destruct (Str.rfind pat s) as [q|].
    + intros [= <-]. simpl. now apply IH.
    + destruct (Str.starts_with pat (c :: s)) eqn:P; [|discriminate].
      intros [= <-]. apply starts_with_spec in P. exact P.
Qed.

Lemma cut_at_last_absent pat s :
  Str.contains pat s = false -> cut_at_last pat s = s.
Proof.
  intros N. unfold cut_at_last. destruct (Str.rfind pat s) as [pos|] eqn:R;
    [|reflexivity].
  apply rfind_some in R as [post R]. rewrite contains_false in N.
  destruct (N (firstn pos s) post). rewrite <- R. symmetry. apply firstn_skipn.
Qed.

Lemma c_str_plain s : forallb plain s = true -> Str.c_str s = s.
Proof.
  induction s as [|c s IH]; [reflexivity|]. simpl.
  intros [[_ P]%andb_prop Q]%andb_prop. apply negb_true_iff in P.
  rewrite P, IH; [reflexivity | exact Q].
Qed.

Lemma plain_ascii s : forallb plain s = true -> forallb is_ascii s = true.
Proof.
  rewrite !forallb_forall. intros P b Hb.
  now destruct (andb_prop _ _ (P b Hb)).
Qed.

(** ** The scan *)

Example scan_ascii : getValidUtf8Length (lit "abc") = 3.
Proof. reflexivity. Qed.

Example scan_stray : getValidUtf8Length [x80; x61] = 2.
Proof. reflexivity. Qed.

Example scan_incomplete : getValidUtf8Length [x61; xf0; x9f; x98] = 1.
Proof. reflexivity. Qed.

Lemma lead_len_range c n : lead_len c = Some n -> 1 <= n <= 4.
Proof.
  unfold lead_len.
  repeat match goal with |- context [if ?b then _ else _] => destruct b end;
    intros [= <-]; lia.
Qed.

Lemma examine_complete data i n :
  examine data i = Complete n -> 1 <= n <= 4 /\ i + n <= length data.
Proof.
  unfold examine.
  destruct (lead_len _) as [m|] eqn:L; [|discriminate].
  apply lead_len_range in L.
  destruct (Nat.ltb_spec (length data) (i + m)); [discriminate|].
  destruct (conts_valid _ _ _ _); [|discriminate].
  intros [= <-]. lia.
Qed.


Lemma utf8_scan_body data i v :
  utf8_scan data i v =
  if i <? length data then
    match examine data i with
    | Skip => utf8_scan data (i + 1) v
    | Incomplete => v
    | Complete n => utf8_scan data (i + n) (i + n)
    end
  else v.
Proof.
  funelim (utf8_scan data i v);
    destruct (Nat.ltb_spec i (length data)); try lia; try reflexivity;
    match goal with H : examine _ _ = _ |- _ => rewrite H end; reflexivity.
Qed.

Lemma examine_ascii data i :
  i < length data -> is_ascii (at_ data i) = true ->
  examine data i = Complete 1.
Proof.
  intros Hi Ha. unfold examine, lead_len. unfold is_ascii in Ha. rewrite Ha.
  destruct (Nat.ltb_spec (length data) (i + 1)); [lia|]. reflexivity.
Qed.

Lemma utf8_scan_ascii data :
  forallb is_ascii data = true ->
  forall n i v,
    n = length data - i -> i <= length data -> (i = length data -> v = i) ->
    utf8_scan data i v = length data.
Proof.
  intros A. induction n as [|n IH]; intros i v Hn Hi Hv; rewrite utf8_scan_body.
  - destruct (Nat.ltb_spec i (length data)); [lia|]. rewrite Hv; lia.
  - destruct (Nat.ltb_spec i (length data)); [|lia].
    rewrite examine_ascii; [|assumption|].
    + apply IH; lia.
    + rewrite forallb_forall in A. apply A. apply nth_In. assumption.
Qed.

(** Text made of ASCII bytes is accepted whole. *)
Lemma getValidUtf8Length_ascii data :
  forallb is_ascii data = true -> getValidUtf8Length data = length data.
Proof.
  intros A. unfold getValidUtf8Length.
  destruct data as [|c data]; [reflexivity|].
  apply (utf8_scan_ascii _ A (length (c :: data))); simpl; lia.
Qed.

(** What [makeValidUtf8] returns is a prefix of the buffer followed by the
    input. *)
Lemma makeValidUtf8_prefix input buffer :
  exists n, fst (makeValidUtf8 input buffer) = firstn n (buffer ++ input).
Proof.
  unfold makeValidUtf8. destruct (Str.empty _); [now exists 0|].
  now exists (getValidUtf8Length (buffer ++ input)).
Qed.

Lemma makeValidUtf8_ascii input :
  forallb is_ascii input = true -> makeValidUtf8 input [] = (input, []).
Proof.
  intros A. unfold makeValidUtf8. simpl.
  destruct input as [|c input]; [reflexivity|]. cbn [Str.empty].
  rewrite (getValidUtf8Length_ascii _ A), Nat.ltb_irrefl.
  unfold Str.substr_to. now rewrite firstn_all.
Qed.

(** ** The scan of appended input *)

Lemma utf8_scan_bound data :
  forall n i v, n = length data - i -> v <= length data ->
                utf8_scan data i v <= length data.
Proof.
  induction n as [n IH] using lt_wf_ind. intros i v Hn Hv.
  rewrite utf8_scan_body.
  destruct (Nat.ltb_spec i (length data)); [|exact Hv].
  destruct (examine data i) as [| |m] eqn:X.
  - apply (IH (length data - (i + 1))); lia.
  - exact Hv.
  - apply examine_complete in X.
    apply (IH (length data - (i + m))); lia.
Qed.

Section ScanCompose.

Variables a b : bytes.

Lemma at_app_l k : k < length a -> at_ (a ++ b) k = at_ a k.
Proof. intros H. unfold at_. now rewrite app_nth1. Qed.

Lemma at_app_r k : at_ (a ++ b) (length a + k) = at_ b k.
Proof. unfold at_. now rewrite app_nth2_plus. Qed.

Lemma conts_valid_app_l i m :
  forall j, i + j + m <= length a ->
            conts_valid (a ++ b) i j m = conts_valid a i j m.
Proof.
  induction m as [|m IH]; intros j H; simpl; [reflexivity|].
  rewrite at_app_l by lia. destruct (is_cont _); [|reflexivity].
  apply IH. lia.
Qed.

Lemma conts_valid_app_r i m :
  forall j, conts_valid (a ++ b) (length a + i) j m = conts_valid b i j m.
Proof.
  induction m as [|m IH]; intros j; simpl; [reflexivity|].
  rewrite <- Nat.add_assoc, at_app_r. destruct (is_cont _); [|reflexivity].
  apply IH.
Qed.

(** A round that skips or accepts inside [a] does the same when more
    bytes follow. *)
Lemma examine_app_l i :
  i < length a -> examine a i <> Incomplete ->
  examine (a ++ b) i = examine a i.
Proof.
  intros Hi. unfold examine. rewrite at_app_l by exact Hi.
  destruct (lead_len _) as [n|] eqn:L; [|reflexivity].
  apply lead_len_range in L.
  destruct (Nat.ltb_spec (length a) (i + n)); [congruence|]. intros _.
  destruct (Nat.ltb_spec (length (a ++ b)) (i + n)) as [H1|_];
    [rewrite length_app in H1; lia|].
  rewrite conts_valid_app_l by lia. reflexivity.
Qed.

Lemma examine_app_r i :
  examine (a ++ b) (length a + i) = examine b i.
Proof.
  unfold examine. rewrite at_app_r.
  destruct (lead_len _) as [n|]; [|reflexivity].
  rewrite conts_valid_app_r, length_app, <- Nat.add_assoc.
  destruct (Nat.ltb_spec (length a + length b) (length a + (i + n))),
           (Nat.ltb_spec (length b) (i + n)); try lia; reflexivity.
Qed.

(** The scan started past a prefix is the scan of the rest. *)
Lemma utf8_scan_app_r :
  forall n i v, n = length b - i ->
    utf8_scan (a ++ b) (length a + i) (length a + v)
    = length a + utf8_scan b i v.
Proof.
  induction n as [n IH] using lt_wf_ind. intros i v Hn.
  rewrite (utf8_scan_body (a ++ b)), (utf8_scan_body b).
  rewrite examine_app_r, length_app.
  destruct (Nat.ltb_spec (length a + i) (length a + length b)),
           (Nat.ltb_spec i (length b)); try lia.
  destruct (examine b i) as [| |m] eqn:X.
  - rewrite <- Nat.add_assoc. apply (IH (length b - (i + 1))); lia.
  - reflexivity.
  - apply examine_complete in X.
    rewrite <- Nat.add_assoc. apply (IH (length b - (i + m))); lia.
Qed.

(** The scan of [a ++ b] passes through the state in which the scan of
    [a] ends. *)
Lemma utf8_scan_app_l :
  forall n i v, n = length a - i ->
    utf8_scan a i v = v \/
    utf8_scan (a ++ b) i v
    = utf8_scan (a ++ b) (utf8_scan a i v) (utf8_scan a i v).
Proof.
  induction n as [n IH] using lt_wf_ind. intros i v Hn.
  rewrite (utf8_scan_body a).
  destruct (Nat.ltb_spec i (length a)) as [Hi|Hi]; [|now left].
  destruct (examine a i) as [| |m] eqn:X.
  - destruct (IH (length a - (i + 1)) ltac:(lia) (i + 1) v eq_refl)
      as [E|E]; [now left | right].
    rewrite (utf8_scan_body (a ++ b) i), examine_app_l, X by congruence.
    destruct (Nat.ltb_spec i (length (a ++ b))) as [_|H];
      [exact E | rewrite length_app in H; lia].
  - now left.
  - right. pose proof (examine_complete _ _ _ X) as B.
    rewrite (utf8_scan_body (a ++ b) i), examine_app_l, X by congruence.
    destruct (Nat.ltb_spec i (length (a ++ b))) as [_|H];
      [|rewrite length_app in H; lia].
    destruct (IH (length a - (i + m)) ltac:(lia) (i + m) (i + m) eq_refl)
      as [E|E]; [now rewrite E | exact E].
Qed.

End ScanCompose.

Lemma getValidUtf8Length_bound data : getValidUtf8Length data <= length data.
Proof. apply (utf8_scan_bound data (length data - 0)); lia. Qed.

(** What is accepted of [a] stays accepted when [b] follows, and the scan
    goes on from there. *)
Lemma getValidUtf8Length_app a b :
  getValidUtf8Length (a ++ b)
  = getValidUtf8Length a
    + getValidUtf8Length (skipn (getValidUtf8Length a) a ++ b).
Proof.
  unfold getValidUtf8Length at 1.
  pose proof (getValidUtf8Length_bound a) as B.
  assert (E : utf8_scan (a ++ b) 0 0
              = utf8_scan (a ++ b) (getValidUtf8Length a)
                  (getValidUtf8Length a)).
  { destruct (utf8_scan_app_l a b (length a - 0) 0 0 eq_refl) as [E|E].
    - unfold getValidUtf8Length. now rewrite E.
    - exact E. }
  rewrite E. set (r := getValidUtf8Length a) in *.
  assert (Lr : length (firstn r a) = r) by (rewrite length_firstn; lia).
  pose proof (utf8_scan_app_r (firstn r a) (skipn r a ++ b)
                (length (skipn r a ++ b) - 0) 0 0 eq_refl) as S.
  rewrite Lr, !Nat.add_0_r in S.
  change (getValidUtf8Length (skipn r a ++ b))
    with (utf8_scan (skipn r a ++ b) 0 0).
  rewrite <- S, app_assoc, firstn_skipn. reflexivity.
Qed.

(** ** The reassembler *)

Lemma makeValidUtf8_split input buffer :
  makeValidUtf8 input buffer
  = (firstn (getValidUtf8Length (buffer ++ input)) (buffer ++ input),
     skipn (getValidUtf8Length (buffer ++ input)) (buffer ++ input)).
Proof.
  unfold makeValidUtf8, Str.substr_to, Str.substr_from.
  destruct (buffer ++ input) as [|c combined] eqn:C; [reflexivity|].
  cbn [Str.empty]. f_equal.
  destruct (Nat.ltb_spec (getValidUtf8Length (c :: combined))
              (length (c :: combined))); [reflexivity|].
  symmetry. now apply skipn_all2.
Qed.

(** Nothing of what is retained is accepted on its own. *)
Lemma retained_not_accepted combined :
  getValidUtf8Length (skipn (getValidUtf8Length combined) combined) = 0.
Proof.
  pose proof (getValidUtf8Length_app combined []) as K.
  rewrite !app_nil_r in K. lia.
Qed.

Lemma firstn_add_app v w (X R : bytes) :
  v <= length X ->
  firstn (v + w) (X ++ R) = firstn v X ++ firstn w (skipn v X ++ R).
Proof.
  revert X. induction v as [|v IH]; intros X H; [reflexivity|].
  destruct X as [|c X]; [simpl in H; lia|]. simpl. f_equal.
  apply IH. simpl in H. lia.
Qed.

Lemma skipn_add_app v w (X R : bytes) :
  v <= length X ->
  skipn (v + w) (X ++ R) = skipn w (skipn v X ++ R).
Proof.
  revert X. induction v as [|v IH]; intros X H; [reflexivity|].
  destruct X as [|c X]; [simpl in H; lia|]. simpl.
  apply IH. simpl in H. lia.
Qed.

Lemma push_all_spec chunks :
  forall buffer,
    getValidUtf8Length buffer = 0 ->
    let full := buffer ++ concat chunks in
    concat (fst (Utf8Reassembler.push_all chunks buffer))
    = firstn (getValidUtf8Length full) full /\
    snd (Utf8Reassembler.push_all chunks buffer)
    = skipn (getValidUtf8Length full) full.
Proof.
  induction chunks as [|c chunks IH]; intros buffer Hb; cbv zeta.
  - simpl. rewrite app_nil_r, Hb. split; reflexivity.
  - cbn [Utf8Reassembler.push_all concat]. unfold Utf8Reassembler.push.
    rewrite makeValidUtf8_split.
    set (X := buffer ++ c). set (v := getValidUtf8Length X).
    specialize (IH (skipn v X) (retained_not_accepted X)). cbv zeta in IH.
    destruct (Utf8Reassembler.push_all chunks (skipn v X)) as [later final].
    cbn [fst snd concat] in *. destruct IH as [IH1 IH2].
    rewrite app_assoc. fold X.
    rewrite (getValidUtf8Length_app X (concat chunks)). fold v.
    pose proof (getValidUtf8Length_bound X) as B. fold v in B.
    rewrite firstn_add_app, skipn_add_app by exact B.
    now rewrite IH1, IH2.
Qed.

(** However the input is divided into pushes, what is emitted is what one
    scan of the whole input accepts. *)
Lemma emitted_whatever_the_pushes chunks :
  Utf8Reassembler.emitted chunks
  = firstn (getValidUtf8Length (concat chunks)) (concat chunks).
Proof.
  unfold Utf8Reassembler.emitted, Utf8Reassembler.flush.
  destruct (push_all_spec chunks [] eq_refl) as [E1 E2]. cbn [app] in *.
  destruct (Utf8Reassembler.push_all chunks []) as [emissions final].
  cbn [fst snd] in *. rewrite makeValidUtf8_split, app_nil_r. cbn [fst].
  rewrite E2, retained_not_accepted, E1. simpl. apply app_nil_r.
Qed.

(** ** Well-formed input *)

Lemma well_formed_conts :
  forall k rest,
    well_formed_from k rest = true ->
    k <= length rest /\
    (forall j, j < k -> is_cont (nth j rest x00) = true) /\
    well_formed_from 0 (skipn k rest) = true.
Proof.
  induction k as [|k IH]; intros rest W.
  - repeat split; [lia | intros j Hj; lia | exact W].
  - destruct rest as [|b rest]; [discriminate|]. simpl in W.
    apply andb_prop in W as [Hb W]. destruct (IH rest W) as (L & C & F).
    repeat split; [simpl; lia | | exact F].
    intros [|j] Hj; [exact Hb | apply C; lia].
Qed.

Lemma conts_valid_all data i m :
  forall j, (forall k, k < m -> is_cont (at_ data (i + (j + k))) = true) ->
            conts_valid data i j m = true.
Proof.
  induction m as [|m IH]; intros j H; simpl; [reflexivity|].
  pose proof (H 0 ltac:(lia)) as H0. rewrite Nat.add_0_r in H0. rewrite H0.
  apply IH. intros k Hk. specialize (H (S k) ltac:(lia)).
  now replace (j + S k) with (S j + k) in H by lia.
Qed.

Lemma skipn_at data i :
  i < length data -> skipn i data = at_ data i :: skipn (S i) data.
Proof.
  revert i. induction data as [|c data IH]; intros [|i] H; simpl in *;
    try lia; [reflexivity|].
  apply IH. lia.
Qed.

Lemma nth_skipn_at data i j : nth j (skipn i data) x00 = at_ data (i + j).
Proof.
  revert i. induction data as [|c data IH]; intros [|i]; simpl;
    try reflexivity.
  - now destruct j.
  - apply IH.
Qed.

(** A well-formed rest is accepted to its end. *)
Lemma utf8_scan_well_formed data :
  forall n i v,
    n = length data - i -> i <= length data ->
    well_formed_from 0 (skipn i data) = true ->
    (i = length data -> v = i) ->
    utf8_scan data i v = length data.
Proof.
  induction n as [n IH] using lt_wf_ind. intros i v Hn Hi W Hv.
  rewrite utf8_scan_body.
  destruct (Nat.ltb_spec i (length data)) as [Lt|Ge];
    [|rewrite Hv; lia].
  rewrite (skipn_at _ _ Lt) in W. cbn [well_formed_from] in W.
  assert (X : exists m, examine data i = Complete m /\ 1 <= m /\
                        i + m <= length data /\
                        well_formed_from 0 (skipn (i + m) data) = true).
  { unfold examine. destruct (lead_len _) as [m|] eqn:L; [|discriminate].
    apply lead_len_range in L.
    destruct (well_formed_conts _ _ W) as (B & C & F).
    rewrite length_skipn in B. exists m.
    destruct (Nat.ltb_spec (length data) (i + m)); [lia|].
    rewrite conts_valid_all.
    - repeat split; try lia. rewrite skipn_skipn in F.
      replace (i + m) with (m - 1 + S i) by lia. exact F.
    - intros k Hk. specialize (C k Hk). rewrite nth_skipn_at in C.
      replace (i + (1 + k)) with (S i + k) by lia. exact C. }
  destruct X as (m & -> & M1 & M2 & F).
  apply (IH (length data - (i + m))); try lia. exact F.
Qed.

Lemma getValidUtf8Length_well_formed s :
  well_formed_utf8 s = true -> getValidUtf8Length s = length s.
Proof.
  intros W. destruct s as [|c s]; [reflexivity|].
  apply (utf8_scan_well_formed _ (length (c :: s) - 0)); simpl; try lia.
  exact W.
Qed.

(** The second sentence of C1 holds: a well-formed string fed in two
    pushes, cut at any byte, comes out whole. *)
Lemma split_in_two_pushes_reassembles s n :
  well_formed_utf8 s = true ->
  Utf8Reassembler.emitted [firstn n s; skipn n s] = s.
Proof.
  intros W. rewrite emitted_whatever_the_pushes. simpl.
  rewrite app_nil_r, firstn_skipn, (getValidUtf8Length_well_formed s W).
  apply firstn_all.
Qed.

Lemma find_last_below (P : nat -> bool) v :
  P v = true ->
  forall m, v <= m -> (forall n, v < n -> n <= m -> P n = false) ->
            find P (rev (seq 0 (S m))) = Some v.
Proof.
  intros Pv. induction m as [|m IH]; intros Hv Hn.
  - assert (v = 0) as -> by lia. simpl. now rewrite Pv.
  - rewrite seq_S, rev_app_distr. cbn [rev app find Nat.add].
    destruct (Nat.eq_dec v (S m)) as [->|Ne]; [now rewrite Pv|].
    rewrite (Hn (S m)) by lia. apply IH; [lia|].
    intros n H1 H2. apply Hn; lia.
Qed.

(** No well-formed prefix is longer than what the scan accepts. *)
Lemma well_formed_prefix_accepted s n :
  n <= length s -> well_formed_utf8 (firstn n s) = true ->
  n <= getValidUtf8Length s.
Proof.
  intros Hn W. apply getValidUtf8Length_well_formed in W.
  rewrite length_firstn, Nat.min_l in W by exact Hn.
  pose proof (getValidUtf8Length_app (firstn n s) (skipn n s)) as K.
  rewrite firstn_skipn, W in K. lia.
Qed.

(** The first sentence of C1 holds whenever what is emitted is
    well-formed: it is then the longest well-formed prefix of the input. *)
Lemma emitted_is_decodable_prefix chunks :
  well_formed_utf8 (Utf8Reassembler.emitted chunks) = true ->
  Utf8Reassembler.emitted chunks = decodable_prefix (concat chunks).
Proof.
  rewrite emitted_whatever_the_pushes. set (s := concat chunks). intros W.
  unfold decodable_prefix.
  rewrite (find_last_below (fun n => well_formed_utf8 (firstn n s))
             (getValidUtf8Length s) W (length s)
             (getValidUtf8Length_bound s)); [reflexivity|].
  intros n H1 H2.
  destruct (well_formed_utf8 (firstn n s)) eqn:Wn; [|reflexivity].
  pose proof (well_formed_prefix_accepted s n H2 Wn). lia.
Qed.

(** ** The sampling loop *)

Section Loop.

Variable E : engine.

Lemma round_piece_samples callback piece st :
  samples (fst (round_piece callback piece st)) = samples st.
Proof.
  unfold round_piece.
  destruct (_ || _); [reflexivity|].
  destruct callback; [|reflexivity].
  destruct (makeValidUtf8 _ _) as [valid_output buffer].
  destruct (negb _); reflexivity.
Qed.

(** Each round samples once, and there are at most [left] rounds. *)
Lemma sampling_loop_samples callback left :
  forall i st,
    samples (sampling_loop E callback left i st) <= samples st + left.
Proof.
  induction left as [|left IH]; intros i st; simpl; [lia|].
  destruct (should_stop_at E i); [lia|].
  destruct (sample_at E i) as [| |piece decoded]; simpl; try lia.
  pose proof (round_piece_samples callback piece (sampled_one st)) as R.
  destruct (round_piece callback piece (sampled_one st)) as [st' stop].
  simpl in R.
  destruct stop; [lia|]. destruct decoded; [|lia].
  specialize (IH (S i) st'). lia.
Qed.

(** Once the flag reads true at the head of round [i + n], the loop is the
    loop of [n] rounds. *)
Lemma sampling_loop_stop callback n :
  forall left i st,
    should_stop_at E (i + n) = true -> n <= left ->
    sampling_loop E callback left i st = sampling_loop E callback n i st.
Proof.
  induction n as [|n IH]; intros left i st Hs Hn.
  - rewrite Nat.add_0_r in Hs. destruct left; simpl; [reflexivity|].
    now rewrite Hs.
  - destruct left as [|left]; [lia|]. simpl.
    destruct (should_stop_at E i); [reflexivity|].
    destruct (sample_at E i) as [| |piece decoded]; try reflexivity.
    destruct (round_piece _ _ _) as [st' stop].
    destruct stop; [reflexivity|]. destruct decoded; [|reflexivity].
    apply IH; [|lia]. now rewrite Nat.add_succ_comm.
Qed.

End Loop.

Lemma max_gen_positive maxTokens : (0 < max_gen maxTokens)%Z.
Proof. unfold max_gen. destruct (Z.gtb_spec maxTokens 0); lia. Qed.

(** ** The generation call *)

(** The call on a loaded session whose prompt tokenizes and evaluates. *)
Lemma nativeGenerate_runs E s maxTokens callback :
  nativeIsModelLoaded s = true ->
  (0 <= llama_tokenize E)%Z ->
  prompt_decode E = 0%Z ->
  let st := sampling_loop E callback (Z.to_nat (max_gen maxTokens)) 0 gen_init in
  nativeGenerate E s maxTokens callback =
  {| returned := fst (finish callback st);
     delivered := snd (finish callback st);
     sampled_tokens := samples st;
     after := {| g_model := g_model s; g_ctx := g_ctx s;
                 g_is_generating := false;
                 g_should_stop := should_stop_at E (samples st) |} |}.
Proof.
  intros Hl Ht Hp. unfold nativeGenerate. rewrite Hl, Hp. simpl.
  destruct (Z.ltb_spec (llama_tokenize E) 0); [lia|]. reflexivity.
Qed.

(** C10: whatever the engine answers, the loop samples at most 512 tokens
    when [maxTokens] is zero or negative, and at most [maxTokens] tokens
    when it is positive. *)
Theorem sampling_rounds_bounded E s maxTokens callback :
  (Z.of_nat (sampled_tokens (nativeGenerate E s maxTokens callback))
   <= if (maxTokens <=? 0)%Z then 512 else maxTokens)%Z.
Proof.
  assert (M : max_gen maxTokens
              = if (maxTokens <=? 0)%Z then 512%Z else maxTokens).
  { unfold max_gen.
    destruct (Z.gtb_spec maxTokens 0), (Z.leb_spec maxTokens 0);
      reflexivity || lia. }
  rewrite <- M. pose proof (max_gen_positive maxTokens) as P.
  unfold nativeGenerate.
  destruct (negb (nativeIsModelLoaded s)); [simpl; lia|].
  destruct (llama_tokenize E <? 0)%Z; [simpl; lia|].
  destruct (negb _); [simpl; lia|].
  destruct (finish _ _) as [text out]. simpl.
  pose proof (sampling_loop_samples E callback
                (Z.to_nat (max_gen maxTokens)) 0 gen_init) as B.
  simpl in B. lia.
Qed.

(** The bound is reached: without a stop, an end token or a failure, the
    default is 512 rounds, for zero and for negative [maxTokens]. *)
Lemma default_rounds_reached :
  sampled_tokens (nativeGenerate endless loaded_session 0 false) = 512 /\
  sampled_tokens (nativeGenerate endless loaded_session (-7) false) = 512 /\
  sampled_tokens (nativeGenerate endless loaded_session 3 false) = 3.
Proof. repeat split; vm_compute; reflexivity. Qed.

Lemma nativeStopGeneration_sets_flag s :
  g_should_stop (nativeStopGeneration s) = true /\
  nativeStopGeneration (nativeStopGeneration s) = nativeStopGeneration s.
Proof. split; reflexivity. Qed.

(** When the flag reads true at the head of round [k], no token is
    sampled in round [k] or later, and the call ends on the state the loop
    has after [k] rounds at most. *)
Lemma stop_read_ends_loop E s maxTokens callback k :
  nativeIsModelLoaded s = true ->
  (0 <= llama_tokenize E)%Z ->
  prompt_decode E = 0%Z ->
  should_stop_at E k = true ->
  let o := nativeGenerate E s maxTokens callback in
  let st := sampling_loop E callback
              (Nat.min k (Z.to_nat (max_gen maxTokens))) 0 gen_init in
  sampled_tokens o <= k /\
  returned o
  = Str.c_str (fst (makeValidUtf8 (final_cleanup (result st)) [])) /\
  delivered o = flush_pending callback st /\
  g_is_generating (after o) = false.
Proof.
  intros Hl Ht Hp Hs. cbv zeta.
  rewrite (nativeGenerate_runs E s maxTokens callback Hl Ht Hp). cbv zeta.
  assert (L : sampling_loop E callback (Z.to_nat (max_gen maxTokens)) 0 gen_init
            = sampling_loop E callback
                (Nat.min k (Z.to_nat (max_gen maxTokens))) 0 gen_init).
  { destruct (Nat.le_gt_cases k (Z.to_nat (max_gen maxTokens))) as [Hk|Hk].
    - rewrite Nat.min_l by exact Hk.
      apply sampling_loop_stop; [exact Hs | exact Hk].
    - rewrite Nat.min_r by lia. reflexivity. }
  rewrite L. cbn [returned delivered sampled_tokens after g_is_generating].
  repeat split.
  pose proof (sampling_loop_samples E callback
                (Nat.min k (Z.to_nat (max_gen maxTokens))) 0 gen_init) as B.
  simpl in B. lia.
Qed.

(** ** A stop request from another thread *)

Lemma flag_up_after_request requests s k :
  requests (BeforeRead k) = true ->
  g_should_stop (globals_at_read requests s k) = true.
Proof.
  intros R. destruct k; cbn [globals_at_read]; unfold other_thread;
    rewrite R; apply nativeStopGeneration_sets_flag.
Qed.

(** The store of line 274 erases what was requested before it. *)
Lemma flag_down_without_request requests s :
  forall i,
    (forall j, j <= i -> requests (BeforeRead j) = false) ->
    g_should_stop (globals_at_read requests s i) = false.
Proof.
  induction i as [|i IH]; intros H; cbn [globals_at_read];
    unfold other_thread; rewrite (H _ (Nat.le_refl _)).
  - reflexivity.
  - apply IH. intros j Hj. apply H. lia.
Qed.

Lemma sampling_loop_same_reads E1 E2 callback left :
  (forall j, sample_at E1 j = sample_at E2 j) ->
  forall i st,
    (forall j, i <= j -> j < i + left ->
               should_stop_at E1 j = should_stop_at E2 j) ->
    sampling_loop E1 callback left i st = sampling_loop E2 callback left i st.
Proof.
  intros Sa. induction left as [|left IH]; intros i st H; [reflexivity|].
  simpl. rewrite (H i) by lia. rewrite Sa.
  destruct (should_stop_at E2 i); [reflexivity|].
  destruct (sample_at E2 i) as [| |piece decoded]; try reflexivity.
  destruct (round_piece _ _ _) as [st' stop].
  destruct stop; [reflexivity|]. destruct decoded; [|reflexivity].
  apply IH. intros j H1 H2. apply H; lia.
Qed.

(** C9, as the code has it: in a call on a loaded session whose prompt
    tokenizes and evaluates, when another thread calls
    [nativeStopGeneration] after the call has cleared the flag and before
    the read at the head of round [k], that read finds the flag up, no
    token is sampled in round [k] or later, and the call returns through
    its normal end, not generating any more, the cleaned text of the
    result accumulated so far.  When that request is the first since the
    clear, the rounds before it ran as in the call that nobody stops: the
    text returned and the texts delivered are those of its first [k]
    rounds at most, whatever was requested before the clear. *)
Theorem stop_request_ends_generation requests E s maxTokens callback k :
  nativeIsModelLoaded s = true ->
  (0 <= llama_tokenize E)%Z ->
  prompt_decode E = 0%Z ->
  requests (BeforeRead k) = true ->
  let o := nativeGenerate (beside requests s E) s maxTokens callback in
  let rounds := Nat.min k (Z.to_nat (max_gen maxTokens)) in
  let st := sampling_loop (beside requests s E) callback rounds 0 gen_init in
  g_should_stop (globals_at_read requests s k) = true /\
  sampled_tokens o <= k /\
  returned o
  = Str.c_str (fst (makeValidUtf8 (final_cleanup (result st)) [])) /\
  delivered o = flush_pending callback st /\
  g_is_generating (after o) = false /\
  ((forall j, j < k -> requests (BeforeRead j) = false) ->
   st = sampling_loop (beside no_request s E) callback rounds 0 gen_init).
Proof.
  intros Hl Ht Hp Hr. cbv zeta.
  pose proof (flag_up_after_request requests s k Hr) as Up.
  split; [exact Up|].
  destruct (stop_read_ends_loop (beside requests s E) s maxTokens callback k
              Hl Ht Hp Up) as (H1 & H2 & H3 & H4).
  repeat (split; [assumption|]).
  intros First. apply sampling_loop_same_reads; [reflexivity|].
  intros j _ Hj. cbn [beside should_stop_at].
  rewrite !flag_down_without_request; [reflexivity | reflexivity |].
  intros i Hi. apply First. lia.
Qed.

Lemma stop_request_ends_generation_witness :
  g_should_stop (globals_at_read early_and_second_round loaded_session 2)
  = true /\
  sampled_tokens (nativeGenerate
                    (beside early_and_second_round loaded_session endless)
                    loaded_session 0 true) <= 2 /\
  returned (nativeGenerate
              (beside early_and_second_round loaded_session endless)
              loaded_session 0 true) = lit "aa" /\
  delivered (nativeGenerate
               (beside early_and_second_round loaded_session endless)
               loaded_session 0 true) = [lit "a"; lit "a"] /\
  g_is_generating
    (after (nativeGenerate
              (beside early_and_second_round loaded_session endless)
              loaded_session 0 true)) = false /\
  sampling_loop (beside early_and_second_round loaded_session endless) true
    (Nat.min 2 (Z.to_nat (max_gen 0))) 0 gen_init
  = sampling_loop (beside no_request loaded_session endless) true
      (Nat.min 2 (Z.to_nat (max_gen 0))) 0 gen_init.
Proof.
  pose proof (stop_request_ends_generation early_and_second_round endless
                loaded_session 0 true 2
                eq_refl ltac:(simpl; lia) eq_refl eq_refl)
    as (H0 & H1 & H2 & H3 & H4 & H5).
  repeat (split; [assumption|]).
  apply H5. intros [|[|j]] Hj; [reflexivity | reflexivity | lia].
Defined.

(** C9 as stated fails in two ways.  A request that falls after the call
    has raised [g_is_generating] and before it clears [g_should_stop]
    sets the flag and is erased: the loop runs to its budget.  And the
    text of a stopped call can be the text of an error: here the first
    token spells one. *)
Lemma stop_request_before_clear_is_lost :
  g_is_generating (raise_generating loaded_session) = true /\
  g_should_stop
    (other_thread only_before_clear BeforeClear
       (raise_generating loaded_session)) = true /\
  sampled_tokens (nativeGenerate
                    (beside only_before_clear loaded_session endless)
                    loaded_session 3 true) = 3 /\
  returned (nativeGenerate
              (beside only_before_clear loaded_session endless)
              loaded_session 3 true) = lit "aaa" /\
  sampled_tokens
    (nativeGenerate
       (beside during_first_round loaded_session
          (scripted [Piece error_tokenization true; Piece (lit "x") true]))
       loaded_session 0 true) = 1 /\
  returned
    (nativeGenerate
       (beside during_first_round loaded_session
          (scripted [Piece error_tokenization true; Piece (lit "x") true]))
       loaded_session 0 true) = error_tokenization.
Proof. repeat split; vm_compute; reflexivity. Qed.

(** C6: when the first token sampled is an end-of-generation token, the
    call returns the empty string, which is none of the error texts, and
    [onToken] is never called; [maxTokens] may be anything, zero
    included. *)
Theorem immediate_eog_returns_empty E s maxTokens callback :
  nativeIsModelLoaded s = true ->
  (0 <= llama_tokenize E)%Z ->
  prompt_decode E = 0%Z ->
  should_stop_at E 0 = false ->
  sample_at E 0 = Eog ->
  let o := nativeGenerate E s maxTokens callback in
  returned o = [] /\ delivered o = [] /\ sampled_tokens o = 1 /\
  returned o <> error_no_model /\ returned o <> error_tokenization /\
  returned o <> error_prompt /\ g_is_generating (after o) = false.
Proof.
  intros Hl Ht Hp Hs He. cbv zeta.
  rewrite (nativeGenerate_runs E s maxTokens callback Hl Ht Hp). cbv zeta.
  pose proof (max_gen_positive maxTokens) as P.
  destruct (Z.to_nat (max_gen maxTokens)) as [|n] eqn:N; [lia|].
  cbn [sampling_loop]. rewrite Hs, He.
  assert (F : finish callback (sampled_one gen_init) = ([], [])).
  { unfold finish, flush_pending. simpl. rewrite andb_false_r.
    rewrite final_cleanup_equation_1. reflexivity. }
  rewrite F. cbn [returned delivered sampled_tokens after g_is_generating fst snd].
  repeat split; discriminate.
Qed.

Lemma immediate_eog_returns_empty_witness :
  let o := nativeGenerate (scripted []) loaded_session 0 true in
  returned o = [] /\ delivered o = [] /\ sampled_tokens o = 1 /\
  returned o <> error_no_model /\ returned o <> error_tokenization /\
  returned o <> error_prompt /\ g_is_generating (after o) = false.
Proof.
  apply (immediate_eog_returns_empty (scripted []) loaded_session 0 true);
    [reflexivity | simpl; lia | reflexivity | reflexivity | reflexivity].
Defined.

(** C7, as the code has it: with no model or no context the call returns
    at once the text "[Error: No model loaded]", which is not empty,
    samples nothing, never calls [onToken] and leaves the globals as they
    were.  The error is a text in the place of the generated text: with a
    model loaded the call returns that text only when the prompt tokenized
    and evaluated and the text is what the sampling loop produced. *)
Theorem no_model_error_is_a_text E s maxTokens callback :
  let o := nativeGenerate E s maxTokens callback in
  (nativeIsModelLoaded s = false ->
   returned o = error_no_model /\ returned o <> [] /\
   sampled_tokens o = 0 /\ delivered o = [] /\ after o = s) /\
  (nativeIsModelLoaded s = true ->
   returned o = error_no_model ->
   (0 <= llama_tokenize E)%Z /\ prompt_decode E = 0%Z /\
   error_no_model
   = fst (finish callback
            (sampling_loop E callback (Z.to_nat (max_gen maxTokens)) 0
               gen_init))).
Proof.
  cbv zeta. split.
  - intros Hl. unfold nativeGenerate. rewrite Hl. simpl.
    repeat split. discriminate.
  - intros Hl. unfold nativeGenerate. rewrite Hl. cbn [negb].
    destruct (Z.ltb_spec (llama_tokenize E) 0) as [Ht|Ht];
      [simpl; discriminate|].
    destruct (Z.eqb_spec (prompt_decode E) 0) as [Hp|Hp];
      [|simpl; discriminate].
    cbn [negb]. destruct (finish _ _) as [text out]. simpl.
    intros ->. repeat split; assumption.
Qed.

Lemma no_model_error_is_a_text_witness :
  (returned (nativeGenerate (scripted []) empty_session 0 true)
   = error_no_model /\
   returned (nativeGenerate (scripted []) empty_session 0 true) <> [] /\
   sampled_tokens (nativeGenerate (scripted []) empty_session 0 true) = 0 /\
   delivered (nativeGenerate (scripted []) empty_session 0 true) = [] /\
   after (nativeGenerate (scripted []) empty_session 0 true) = empty_session)
  /\
  ((0 <= llama_tokenize (scripted [Piece error_no_model true]))%Z /\
   prompt_decode (scripted [Piece error_no_model true]) = 0%Z /\
   error_no_model
   = fst (finish false
            (sampling_loop (scripted [Piece error_no_model true]) false
               (Z.to_nat (max_gen 0)) 0 gen_init))).
Proof.
  split.
  - apply (proj1 (no_model_error_is_a_text (scripted []) empty_session 0 true)).
    reflexivity.
  - apply (proj2 (no_model_error_is_a_text
                    (scripted [Piece error_no_model true])
                    loaded_session 0 false));
      reflexivity.
Defined.

(** C7 as stated fails on its converse: a loaded model whose one token
    spells the message returns the very text of the no-model error. *)
Lemma loaded_call_returns_no_model_text :
  nativeIsModelLoaded loaded_session = true /\
  returned (nativeGenerate (scripted [Piece error_no_model true])
              loaded_session 0 false) = error_no_model /\
  returned (nativeGenerate (scripted [Piece error_no_model true])
              loaded_session 0 false)
  = returned (nativeGenerate (scripted [Piece error_no_model true])
                empty_session 0 false).
Proof. repeat split; vm_compute; reflexivity. Qed.

(** ** Loading *)

(** C8: when the model file parses and the context cannot be made, the
    load returns [JNI_FALSE] after logging "Failed to create context",
    the model just loaded is freed, and both handles are null, so that
    [nativeIsModelLoaded] answers false. *)
Theorem context_failure_empties_session
    L s modelPath nCtx nThreads useGpu model :
  llama_model_load_from_file L modelPath (n_gpu_layers useGpu) = Some model ->
  llama_init_from_model L model (ctx_size nCtx) (thread_count L nThreads)
  = None ->
  let o := nativeLoadModel L s modelPath nCtx nThreads useGpu in
  load_ret o = false /\
  load_error o = Some (lit "Failed to create context") /\
  In (llama_model_free model) (load_released o) /\
  g_model (load_after o) = None /\ g_ctx (load_after o) = None /\
  nativeIsModelLoaded (load_after o) = false.
Proof.
  intros Hm Hc. cbv zeta. unfold nativeLoadModel. rewrite Hm, Hc.
  cbn [load_ret load_error load_released load_after].
  repeat split. rewrite !in_app_iff. right. right. now left.
Qed.

Lemma context_failure_empties_session_witness :
  let o := nativeLoadModel no_context_loader loaded_session
             (lit "/sdcard/model.gguf") 0 0 false in
  load_ret o = false /\
  load_error o = Some (lit "Failed to create context") /\
  In (llama_model_free 7%positive) (load_released o) /\
  g_model (load_after o) = None /\ g_ctx (load_after o) = None /\
  nativeIsModelLoaded (load_after o) = false.
Proof.
  apply (context_failure_empties_session no_context_loader loaded_session
           (lit "/sdcard/model.gguf") 0 0 false 7%positive);
    reflexivity.
Defined.

(** ** Stop markers in the returned text *)

Lemma final_cleanup_clean r :
  Str.contains im_fragment (final_cleanup r) = false.
Proof.
  funelim (final_cleanup r).
  - assumption.
  - unfold Str.contains.
    match goal with H : Str.find _ _ = None |- _ => now rewrite H end.
Qed.

Lemma finish_clean callback st :
  Str.contains im_fragment (fst (finish callback st)) = false.
Proof.
  unfold finish. cbn [fst].
  destruct (c_str_firstn (fst (makeValidUtf8 (final_cleanup (result st)) [])))
    as [n ->].
  destruct (makeValidUtf8_prefix (final_cleanup (result st)) []) as [m ->].
  simpl. do 2 apply contains_firstn. apply final_cleanup_clean.
Qed.

(** Text without ["<|im_"] holds neither marker and does not end in a
    started marker that reaches ["<|im_"]. *)
Lemma no_fragment_no_marker text :
  Str.contains im_fragment text = false ->
  Str.contains im_end text = false /\ Str.contains im_start text = false /\
  forallb (fun p => negb (Str.ends_with p text))
    (partial_starts im_end ++ partial_starts im_start) = true.
Proof.
  intros N. split; [|split].
  - exact (contains_longer im_fragment (lit "end|>") text N).
  - exact (contains_longer im_fragment (lit "start|>") text N).
  - apply forallb_forall. intros p Hp. apply negb_true_iff.
    assert (S : Str.starts_with im_fragment p = true).
    { revert p Hp. apply forallb_forall. reflexivity. }
    apply starts_with_spec in S as [more ->].
    now apply ends_with_contains.
Qed.

(** C3, as the code has it: the text returned never holds ["<|im_"];
    so it holds neither marker, and it does not end in a started marker
    of five bytes or more. *)
Theorem returned_text_has_no_marker E s maxTokens callback :
  let text := returned (nativeGenerate E s maxTokens callback) in
  Str.contains im_fragment text = false /\
  Str.contains im_end text = false /\ Str.contains im_start text = false /\
  forallb (fun p => negb (Str.ends_with p text))
    (partial_starts im_end ++ partial_starts im_start) = true.
Proof.
  cbv zeta.
  assert (N : Str.contains im_fragment
                (returned (nativeGenerate E s maxTokens callback)) = false).
  { unfold nativeGenerate.
    destruct (negb (nativeIsModelLoaded s)); [reflexivity|].
    destruct (llama_tokenize E <? 0)%Z; [reflexivity|].
    destruct (negb _); [reflexivity|].
    pose proof (finish_clean callback
                  (sampling_loop E callback (Z.to_nat (max_gen maxTokens)) 0
                     gen_init)) as C.
    destruct (finish _ _) as [text out]. exact C. }
  split; [exact N|]. now apply no_fragment_no_marker.
Qed.

(** C3 as stated fails: a run whose only token is "<" returns "<", the
    first byte of both markers. *)
Lemma returned_text_ends_in_marker_start :
  returned (nativeGenerate (scripted [Piece (lit "<") true])
              loaded_session 0 false) = lit "<" /\
  Str.ends_with (firstn 1 im_end)
    (returned (nativeGenerate (scripted [Piece (lit "<") true])
                 loaded_session 0 false)) = true /\
  Str.ends_with (firstn 1 im_start)
    (returned (nativeGenerate (scripted [Piece (lit "<") true])
                 loaded_session 0 false)) = true.
Proof. repeat split. Qed.

(** ** The example "Hi there!<|im_end|>" *)

Lemma final_cleanup_absent r :
  Str.contains im_fragment r = false -> final_cleanup r = r.
Proof.
  unfold Str.contains. intros N.
  funelim (final_cleanup r); [|reflexivity].
  match goal with H : Str.find _ _ = Some _ |- _ => rewrite H in N end.
  discriminate.
Qed.

Lemma push_recent_suffix R p n :
  n <= length R ->
  exists m, m <= length (R ++ p) /\
            push_recent (skipn n R) p = skipn m (R ++ p).
Proof.
  intros Hn. unfold push_recent.
  assert (E : skipn n R ++ p = skipn n (R ++ p)).
  { rewrite skipn_app. replace (n - length R) with 0 by lia. reflexivity. }
  rewrite E. destruct (50 <? _).
  - unfold Str.substr_from. rewrite skipn_skipn.
    rewrite length_skipn.
    exists (length (R ++ p) - n - 50 + n).
    split; [rewrite length_app; lia | reflexivity].
  - exists n. rewrite length_app. split; [lia | reflexivity].
Qed.

Lemma push_recent_ends r p :
  length p <= 50 -> exists pre, push_recent r p = pre ++ p.
Proof.
  intros Hp. unfold push_recent. destruct (50 <? _) eqn:C.
  - apply Nat.ltb_lt in C. rewrite length_app in *.
    unfold Str.substr_from. rewrite skipn_app.
    replace (length r + length p - 50 - length r) with 0 by lia.
    now exists (skipn (length r + length p - 50) r).
  - now exists r.
Qed.

Lemma no_lt_no_marker s :
  Str.contains lt_sign s = false ->
  Str.contains im_end s = false /\ Str.contains im_end_partial s = false /\
  Str.contains im_start s = false /\ Str.contains im_start_partial s = false /\
  Str.contains im_fragment s = false.
Proof.
  intros N. repeat split.
  - exact (contains_longer lt_sign (lit "|im_end|>") s N).
  - exact (contains_longer lt_sign (lit "|im_end") s N).
  - exact (contains_longer lt_sign (lit "|im_start|>") s N).
  - exact (contains_longer lt_sign (lit "|im_start") s N).
  - exact (contains_longer lt_sign (lit "|im_") s N).
Qed.

Section MarkerPiece.

Variable E : engine.

Lemma round_plain callback p st R :
  streamed callback R st ->
  forallb plain p = true ->
  Str.contains lt_sign (R ++ p) = false ->
  exists st',
    round_piece callback p st = (st', false) /\
    streamed callback (R ++ p) st' /\ samples st' = samples st.
Proof.
  intros (Hr & (n & Hn & Hrec) & Hb & Hp & Hs & Hf) Pp N.
  unfold round_piece. rewrite Hrec, Hr, Hb, Hp.
  destruct (push_recent_suffix R p n Hn) as (m & Hm & ->).
  destruct (no_lt_no_marker _ (contains_skipn _ _ m N)) as (-> & _ & -> & _).
  cbn [orb].
  destruct callback.
  - cbn [app]. rewrite (makeValidUtf8_ascii p (plain_ascii p Pp)).
    destruct p as [|c p].
    + cbn [Str.empty negb]. eexists. split; [reflexivity|].
      rewrite app_nil_r. split; [|reflexivity].
      repeat split; cbn; try assumption. exists m. rewrite app_nil_r in *.
      split; [exact Hm | reflexivity].
    + cbn [Str.empty negb]. eexists. split; [reflexivity|].
      split; [|reflexivity].
      unfold call_sink. rewrite (c_str_plain _ Pp).
      repeat split; cbn [result recent_output utf8_buffer pending_output sink].
      * exists m. split; [exact Hm | reflexivity].
      * rewrite concat_app, Hs. simpl. now rewrite app_nil_r.
      * apply Forall_app. split; [exact Hf|].
        constructor; [|constructor]. exact (contains_app_r _ _ _ N).
  - eexists. split; [reflexivity|]. split; [|reflexivity].
    repeat split; cbn [result recent_output utf8_buffer pending_output sink];
      try assumption.
    exists m. split; [exact Hm | reflexivity].
Qed.

Lemma round_marker callback st R :
  streamed callback R st ->
  Str.contains lt_sign R = false ->
  exists st',
    round_piece callback im_end st = (st', true) /\
    result st' = R /\ pending_output st' = pending_output st /\
    utf8_buffer st' = utf8_buffer st /\
    sink st' = sink st /\ samples st' = samples st.
Proof.
  intros (Hr & (n & Hn & Hrec) & _) N.
  destruct (no_lt_no_marker _ N) as (N1 & N2 & N3 & N4 & _).
  unfold round_piece. rewrite Hr.
  destruct (push_recent_ends (recent_output st) im_end) as [pre ->];
    [simpl; lia|].
  assert (C : Str.contains im_end (pre ++ im_end) = true).
  { apply contains_spec. exists pre, []. now rewrite app_nil_r. }
  rewrite C. cbn [orb].
  rewrite (cut_at_last_absent _ _ N1), (cut_at_last_absent _ _ N2).
  eexists. split; [reflexivity|]. cbn [result].
  split; [|repeat split].
  destruct (Str.contains im_start (pre ++ im_end)); [|reflexivity].
  now rewrite (cut_at_last_absent _ _ N3), (cut_at_last_absent _ _ N4).
Qed.

Lemma loop_plain_then_marker callback :
  forall pieces left i st R decoded,
    streamed callback R st ->
    forallb plain (concat pieces) = true ->
    Str.contains lt_sign (R ++ concat pieces) = false ->
    (forall k, k < length pieces ->
               sample_at E (i + k) = Piece (nth k pieces []) true) ->
    sample_at E (i + length pieces) = Piece im_end decoded ->
    (forall k, k <= length pieces -> should_stop_at E (i + k) = false) ->
    length pieces < left ->
    let st' := sampling_loop E callback left i st in
    result st' = R ++ concat pieces /\
    utf8_buffer st' = [] /\
    pending_output st' = (if callback then [] else R ++ concat pieces) /\
    concat (sink st') = (if callback then R ++ concat pieces else []) /\
    Forall (fun t => Str.contains lt_sign t = false) (sink st').
Proof.
  induction pieces as [|p pieces IH];
    intros left i st R decoded Hst Pl N Hs Hm Hf Hl; cbv zeta.
  - destruct left as [|left]; [simpl in Hl; lia|]. cbn [sampling_loop].
    simpl in Hm. rewrite Nat.add_0_r in Hm.
    pose proof (Hf 0 (Nat.le_refl _)) as F0. rewrite Nat.add_0_r in F0.
    rewrite F0, Hm. simpl in N |- *. rewrite app_nil_r in *.
    assert (Hst1 : streamed callback R (sampled_one st)) by exact Hst.
    destruct (round_marker callback _ R Hst1 N)
      as (st' & -> & Hr & Hp & Hb & Hk & _).
    destruct Hst as (_ & _ & Hb0 & Hp0 & Hs0 & Hf0).
    cbv beta iota. rewrite Hr, Hp, Hb, Hk.
    cbn [sampled_one pending_output utf8_buffer sink]. auto.
  - destruct left as [|left]; [simpl in Hl; lia|]. cbn [sampling_loop].
    pose proof (Hf 0 ltac:(simpl; lia)) as F0. rewrite Nat.add_0_r in F0.
    rewrite F0.
    pose proof (Hs 0 ltac:(simpl; lia)) as H0.
    rewrite Nat.add_0_r in H0. cbn [nth] in H0. rewrite H0.
    simpl in Pl, N. rewrite forallb_app in Pl.
    apply andb_prop in Pl as [Pp Pl].
    assert (Hst1 : streamed callback R (sampled_one st)) by exact Hst.
    rewrite app_assoc in N.
    destruct (round_plain callback p _ R Hst1 Pp (contains_app_l _ _ _ N))
      as (st' & -> & Hst' & _).
    cbv beta iota. simpl concat. rewrite app_assoc.
    apply (IH left (S i) st' (R ++ p) decoded Hst' Pl N).
    + intros k Hk. rewrite Nat.add_succ_comm. apply (Hs (S k)). simpl. lia.
    + rewrite Nat.add_succ_comm. exact Hm.
    + intros k Hk. rewrite Nat.add_succ_comm. apply Hf. simpl. lia.
    + simpl in Hl. lia.
Qed.

End MarkerPiece.

(** C4, as the code has it: when the pieces sampled first reconstruct to
    "Hi there!", however that text is split, and the marker "<|im_end|>"
    then comes as one piece of its own, the call returns exactly
    "Hi there!", [onToken] gets exactly the text "Hi there!" and no text
    with "<", the byte every started marker begins with. *)
Theorem marker_in_its_own_piece E s maxTokens callback pieces decoded :
  nativeIsModelLoaded s = true ->
  (0 <= llama_tokenize E)%Z ->
  prompt_decode E = 0%Z ->
  concat pieces = hi_there ->
  (forall k, k < length pieces ->
             sample_at E k = Piece (nth k pieces []) true) ->
  sample_at E (length pieces) = Piece im_end decoded ->
  (forall k, k <= length pieces -> should_stop_at E k = false) ->
  (Z.of_nat (length pieces) < max_gen maxTokens)%Z ->
  let o := nativeGenerate E s maxTokens callback in
  returned o = hi_there /\
  concat (delivered o) = (if callback then hi_there else []) /\
  Forall (fun t => Str.contains lt_sign t = false) (delivered o).
Proof.
  intros Hl Ht Hp Hc Hs Hm Hf Hn. cbv zeta.
  rewrite (nativeGenerate_runs E s maxTokens callback Hl Ht Hp). cbv zeta.
  assert (I : streamed callback [] gen_init).
  { repeat split; try (now destruct callback); try constructor.
    exists 0. split; [simpl; lia | reflexivity]. }
  destruct (loop_plain_then_marker E callback pieces
              (Z.to_nat (max_gen maxTokens)) 0 gen_init [] decoded I)
    as (Hr & Hb & Hq & Hk & Hd);
    try assumption; try (rewrite Hc; reflexivity); try lia.
  cbn [app] in *. rewrite Hc in *.
  set (st := sampling_loop E callback (Z.to_nat (max_gen maxTokens)) 0 gen_init)
    in *.
  unfold finish, flush_pending. cbn [returned delivered fst snd].
  rewrite Hr, Hq. split.
  - reflexivity.
  - destruct callback; cbn [Str.empty negb andb]; split; assumption.
Qed.

Lemma marker_in_its_own_piece_witness :
  let o := nativeGenerate
             (scripted [Piece (lit "Hi ") true; Piece (lit "there!") true;
                        Piece im_end true])
             loaded_session 0 true in
  returned o = hi_there /\
  concat (delivered o) = hi_there /\
  Forall (fun t => Str.contains lt_sign t = false) (delivered o).
Proof.
  apply (marker_in_its_own_piece
           (scripted [Piece (lit "Hi ") true; Piece (lit "there!") true;
                      Piece im_end true])
           loaded_session 0 true [lit "Hi "; lit "there!"] true).
  - reflexivity.
  - simpl; lia.
  - reflexivity.
  - reflexivity.
  - intros [|[|k]] Hk; [reflexivity | reflexivity | simpl in Hk; lia].
  - reflexivity.
  - reflexivity.
  - reflexivity.
Defined.

(** C4 as stated fails: with the text split as "Hi there!<|im" and
    "_end|>", the call returns "Hi there!<|im" and [onToken] got that same
    text, the first four bytes of the marker included. *)
Lemma marker_split_across_pieces :
  concat [lit "Hi there!<|im"; lit "_end|>"] = lit "Hi there!<|im_end|>" /\
  returned (nativeGenerate
              (scripted [Piece (lit "Hi there!<|im") true;
                         Piece (lit "_end|>") true])
              loaded_session 0 true) = lit "Hi there!<|im" /\
  returned (nativeGenerate
              (scripted [Piece (lit "Hi there!<|im") true;
                         Piece (lit "_end|>") true])
              loaded_session 0 true) <> hi_there /\
  delivered (nativeGenerate
               (scripted [Piece (lit "Hi there!<|im") true;
                          Piece (lit "_end|>") true])
               loaded_session 0 true) = [lit "Hi there!<|im"] /\
  Str.contains (firstn 4 im_end) (lit "Hi there!<|im") = true.
Proof.
  split; [reflexivity|]. split; [vm_compute; reflexivity|].
  split; [vm_compute; discriminate|]. split; vm_compute; reflexivity.
Qed.

(** ** Malformed text *)

(** C1, evaluated where it fails: one push of a stray continuation byte
    followed by "a" emits both bytes, in one push or in two; the text
    emitted is not well-formed, and the decodable prefix of that input is
    empty. *)
Theorem reassembler_emits_stray_byte :
  Utf8Reassembler.emitted [[x80; x61]] = [x80; x61] /\
  Utf8Reassembler.emitted [[x80]; [x61]] = [x80; x61] /\
  well_formed_utf8 [x80; x61] = false /\
  decodable_prefix [x80; x61] = [].
Proof. repeat split. Qed.

(** C2, evaluated where it fails: the two bytes of U+00E9 sampled as two
    tokens reach [onToken] as three bytes that are not well-formed; a
    token that is a stray continuation byte and "a" reaches it as it is;
    a token that is one NUL byte reaches it as the empty text. *)
Theorem sink_gets_malformed_text :
  well_formed_utf8 [xc3; xa9] = true /\
  delivered (nativeGenerate (scripted [Piece [xc3] true; Piece [xa9] true])
               loaded_session 0 true) = [[xc3; xc3; xa9]] /\
  well_formed_utf8 [xc3; xc3; xa9] = false /\
  delivered (nativeGenerate (scripted [Piece [x80; x61] true])
               loaded_session 0 true) = [[x80; x61]] /\
  well_formed_utf8 [x80; x61] = false /\
  delivered (nativeGenerate (scripted [Piece [x00] true])
               loaded_session 0 true) = [[]].
Proof. repeat split. Qed.

(** C5, evaluated where it fails: with the first three bytes of U+1F600
    in one token and the fourth in the next, [onToken] gets nothing in the
    first round, and in the second it gets seven bytes, the first three
    delivered twice. *)
Theorem four_byte_character_delivered_twice :
  well_formed_utf8 [xf0; x9f; x98; x80] = true /\
  sink (sampling_loop (scripted [Piece [xf0; x9f; x98] true; Piece [x80] true])
          true 1 0 gen_init) = [] /\
  sink (sampling_loop (scripted [Piece [xf0; x9f; x98] true; Piece [x80] true])
          true 2 0 gen_init) = [[xf0; x9f; x98; xf0; x9f; x98; x80]] /\
  delivered (nativeGenerate
               (scripted [Piece [xf0; x9f; x98] true; Piece [x80] true])
               loaded_session 0 true)
  = [[xf0; x9f; x98; xf0; x9f; x98; x80]] /\
  well_formed_utf8 [xf0; x9f; x98; xf0; x9f; x98; x80] = false.
Proof. repeat split. Qed.


(** * More of the code *)

(** ** The scan and [makeValidUtf8] *)

(** X1: the length [getValidUtf8Length] reports is never more than the
    length it was given, and [makeValidUtf8] gives back every byte it
    got: what it returns followed by what it keeps is the buffer followed
    by the input. *)
Theorem makeValidUtf8_keeps_every_byte input buffer :
  getValidUtf8Length (buffer ++ input) <= length (buffer ++ input) /\
  fst (makeValidUtf8 input buffer) ++ snd (makeValidUtf8 input buffer)
  = buffer ++ input.
Proof.
  split; [apply getValidUtf8Length_bound|].
  rewrite makeValidUtf8_split. apply firstn_skipn.
Qed.

(** X2: the bytes [makeValidUtf8] keeps hold no character it would
    accept, so the next call with no input returns nothing and keeps the
    same bytes. *)
Theorem kept_bytes_wait_for_more input buffer :
  let kept := snd (makeValidUtf8 input buffer) in
  getValidUtf8Length kept = 0 /\ makeValidUtf8 [] kept = ([], kept).
Proof.
  cbv zeta. rewrite makeValidUtf8_split. cbn [snd].
  set (c := buffer ++ input).
  pose proof (retained_not_accepted c) as R. split; [exact R|].
  rewrite makeValidUtf8_split, app_nil_r, R. reflexivity.
Qed.

(** X3: bytes that follow never take back what was accepted: the prefix
    accepted of [a] is a prefix of the one accepted of [a ++ b]. *)
Theorem accepted_prefix_grows a b :
  getValidUtf8Length a <= getValidUtf8Length (a ++ b) /\
  firstn (getValidUtf8Length a)
    (firstn (getValidUtf8Length (a ++ b)) (a ++ b))
  = firstn (getValidUtf8Length a) a.
Proof.
  pose proof (getValidUtf8Length_app a b) as K.
  pose proof (getValidUtf8Length_bound a) as B.
  split; [lia|].
  rewrite firstn_firstn, Nat.min_l by lia.
  rewrite firstn_app. replace (getValidUtf8Length a - length a) with 0 by lia.
  simpl. apply app_nil_r.
Qed.

(** X4: however a byte sequence is cut into successive calls that thread
    the buffer, the texts returned, put together, are what one call on
    the whole sequence returns. *)
Theorem pushes_equal_one_push chunks :
  Utf8Reassembler.emitted chunks = fst (makeValidUtf8 (concat chunks) []).
Proof.
  rewrite emitted_whatever_the_pushes, makeValidUtf8_split. reflexivity.
Qed.

Lemma makeValidUtf8_well_formed s :
  well_formed_utf8 s = true -> makeValidUtf8 s [] = (s, []).
Proof.
  intros W. rewrite makeValidUtf8_split. cbn [app].
  rewrite (getValidUtf8Length_well_formed s W), firstn_all, skipn_all.
  reflexivity.
Qed.

(** X5: with an empty buffer, well-formed text is returned whole and
    nothing is kept. *)
Theorem well_formed_text_passes s :
  well_formed_utf8 s = true ->
  makeValidUtf8 s [] = (s, []) /\
  Utf8Reassembler.emitted [s] = s.
Proof.
  intros W. split; [now apply makeValidUtf8_well_formed|].
  rewrite emitted_whatever_the_pushes. simpl. rewrite app_nil_r.
  rewrite (getValidUtf8Length_well_formed s W). apply firstn_all.
Qed.

Lemma well_formed_text_passes_witness :
  makeValidUtf8 [x61; xc3; xa9; xf0; x9f; x98; x80] []
  = ([x61; xc3; xa9; xf0; x9f; x98; x80], []) /\
  Utf8Reassembler.emitted [[x61; xc3; xa9; xf0; x9f; x98; x80]]
  = [x61; xc3; xa9; xf0; x9f; x98; x80].
Proof.
  apply (well_formed_text_passes [x61; xc3; xa9; xf0; x9f; x98; x80]).
  reflexivity.
Defined.

(** X6: well-formed text followed by the start of a character that is
    not yet whole: the text is returned, the start is kept for the next
    call. *)
Theorem started_character_is_kept w t :
  well_formed_utf8 w = true -> incomplete_start t = true ->
  makeValidUtf8 (w ++ t) [] = (w, t).
Proof.
  intros W T. rewrite makeValidUtf8_split. cbn [app].
  assert (Z0 : getValidUtf8Length t = 0).
  { unfold getValidUtf8Length. rewrite utf8_scan_body.
    destruct t as [|c t]; [discriminate|]. cbn [length Nat.ltb Nat.leb].
    unfold examine, at_. cbn [nth]. unfold incomplete_start in T.
    destruct (lead_len (uchar c)) as [n|]; [|discriminate].
    cbn [Nat.add]. now rewrite T. }
  rewrite (getValidUtf8Length_app w t), (getValidUtf8Length_well_formed w W).
  rewrite skipn_all. cbn [app]. rewrite Z0, Nat.add_0_r.
  rewrite firstn_app, firstn_all, Nat.sub_diag, skipn_app, skipn_all,
    Nat.sub_diag.
  simpl. now rewrite app_nil_r.
Qed.

Lemma started_character_is_kept_witness :
  makeValidUtf8 ([x61; xc3; xa9] ++ [xf0; x9f; x98]) []
  = ([x61; xc3; xa9], [xf0; x9f; x98]).
Proof.
  apply (started_character_is_kept [x61; xc3; xa9] [xf0; x9f; x98]);
    reflexivity.
Defined.

Lemma conts_valid_each data i m :
  forall j, conts_valid data i j m = true ->
            forall k, k < m -> is_cont (at_ data (i + (j + k))) = true.
Proof.
  induction m as [|m IH]; intros j C k Hk; [lia|]. simpl in C.
  destruct (is_cont (at_ data (i + j))) eqn:H0; [|discriminate].
  destruct k as [|k]; [now rewrite Nat.add_0_r|].
  replace (j + S k) with (S j + k) by lia. apply IH; [exact C | lia].
Qed.

Lemma conts_well_formed rest :
  forallb is_cont rest = true -> well_formed_from (length rest) rest = true.
Proof.
  induction rest as [|b rest IH]; [reflexivity|]. simpl.
  intros [-> C]%andb_prop. now apply IH.
Qed.

(** A character the scan accepts is a well-formed one. *)
Lemma examine_complete_well_formed data i n :
  examine data i = Complete n ->
  well_formed_utf8 (firstn n (skipn i data)) = true.
Proof.
  intros X. pose proof (examine_complete _ _ _ X) as [R B].
  unfold examine in X. destruct (lead_len _) as [m|] eqn:L; [|discriminate].
  destruct (length data <? i + m); [discriminate|].
  destruct (conts_valid data i 1 (m - 1)) eqn:C; [|discriminate].
  injection X as ->.
  rewrite (skipn_at data i) by lia.
  destruct n as [|n]; [lia|]. cbn [firstn]. unfold well_formed_utf8.
  cbn [well_formed_from]. rewrite L.
  replace (S n - 1) with (length (firstn n (skipn (S i) data))).
  - apply conts_well_formed. apply forallb_forall. intros b Hb.
    apply (In_nth _ _ x00) in Hb as (k & Hk & <-).
    rewrite length_firstn, length_skipn in Hk.
    rewrite nth_firstn. destruct (Nat.ltb_spec k n); [|lia].
    rewrite nth_skipn_at.
    pose proof (conts_valid_each data i (S n - 1) 1 C k ltac:(lia)) as Ck.
    now replace (S i + k) with (i + (1 + k)) by lia.
  - rewrite length_firstn, length_skipn. lia.
Qed.

Lemma utf8_scan_ends_on_character data :
  forall n i v,
    n = length data - i ->
    (v = 0 \/ exists j m, j + m = v /\ examine data j = Complete m) ->
    utf8_scan data i v = 0 \/
    exists j m, j + m = utf8_scan data i v /\ examine data j = Complete m.
Proof.
  induction n as [n IH] using lt_wf_ind. intros i v Hn Hv.
  rewrite utf8_scan_body.
  destruct (Nat.ltb_spec i (length data)); [|exact Hv].
  destruct (examine data i) as [| |m] eqn:X.
  - apply (IH (length data - (i + 1))); [lia | reflexivity | exact Hv].
  - exact Hv.
  - pose proof (examine_complete _ _ _ X).
    apply (IH (length data - (i + m))); [lia | reflexivity|].
    right. now exists i, m.
Qed.

(** X7: what [getValidUtf8Length] accepts, when it accepts anything, ends
    with one whole character of one to four bytes: the text returned never
    stops inside a character that the scan recognised. *)
Theorem accepted_text_ends_with_a_character data :
  let v := getValidUtf8Length data in
  v = 0 \/
  exists n, 1 <= n <= 4 /\ n <= v /\
            well_formed_utf8 (skipn (v - n) (firstn v data)) = true.
Proof.
  cbv zeta. unfold getValidUtf8Length.
  destruct (utf8_scan_ends_on_character data (length data - 0) 0 0 eq_refl)
    as [Z0|(j & m & E & X)]; [now left | now left | right].
  pose proof (examine_complete _ _ _ X) as [R B].
  exists m. rewrite <- E. repeat split; try lia.
  replace (j + m - m) with j by lia.
  rewrite <- firstn_skipn_comm. now apply examine_complete_well_formed.
Qed.

(** ** The final cleanup *)

Lemma find_is_first pat s pos :
  pat <> [] -> Str.find pat s = Some pos ->
  Str.contains pat (firstn pos s) = false.
Proof.
  intros Np. revert pos. induction s as [|c s IH]; intros pos.
  - simpl. destruct pat; [congruence | discriminate].
  - cbn [Str.find]. destruct (Str.starts_with pat (c :: s)) eqn:P.
    + intros [= <-]. unfold Str.contains. simpl.
      destruct pat; [congruence | reflexivity].
    + destruct (Str.find pat s) as [q|] eqn:F; [|discriminate].
      intros [= <-]. specialize (IH q eq_refl). cbn [firstn].
      unfold Str.contains in *. cbn [Str.find].
      destruct (Str.starts_with pat (c :: firstn q s)) eqn:Q.
      * apply starts_with_spec in Q as [post Q].
        assert (Str.starts_with pat (c :: s) = true) as R.
        { apply starts_with_spec. exists (post ++ skipn q s).
          rewrite app_assoc, <- Q. simpl. now rewrite firstn_skipn. }
        congruence.
      * destruct (Str.find pat (firstn q s)); [discriminate|reflexivity].
Qed.

Lemma final_cleanup_body r :
  final_cleanup r
  = match Str.find im_fragment r with
    | Some pos => final_cleanup (Str.substr_to pos r)
    | None => r
    end.
Proof.
  funelim (final_cleanup r);
    match goal with H : Str.find _ _ = _ |- _ => rewrite H end; reflexivity.
Qed.

Lemma final_cleanup_prefix r :
  exists n, final_cleanup r = firstn n r.
Proof.
  rewrite final_cleanup_body.
  destruct (Str.find im_fragment r) as [pos|] eqn:F.
  - exists pos. apply final_cleanup_absent, find_is_first;
      [discriminate | exact F].
  - exists (length r). symmetry. apply firstn_all.
Qed.

(** X8: the final cleanup keeps exactly the text before the first
    "<|im_" and all the text when there is none; one pass of its loop
    does it, and cleaning again changes nothing. *)
Theorem final_cleanup_cuts_at_first_fragment r :
  final_cleanup r
  = match Str.find im_fragment r with
    | Some pos => Str.substr_to pos r
    | None => r
    end /\
  final_cleanup (final_cleanup r) = final_cleanup r.
Proof.
  split; [|apply final_cleanup_absent, final_cleanup_clean].
  rewrite final_cleanup_body.
  destruct (Str.find im_fragment r) as [pos|] eqn:F; [|reflexivity].
  apply final_cleanup_absent, find_is_first; [discriminate | exact F].
Qed.

(** ** The loop and the callback *)

Lemma round_piece_same_text c1 c2 piece st1 st2 :
  same_text st1 st2 ->
  same_text (fst (round_piece c1 piece st1)) (fst (round_piece c2 piece st2))
  /\ snd (round_piece c1 piece st1) = snd (round_piece c2 piece st2).
Proof.
  intros (R & C & N). unfold round_piece. rewrite R, C, N.
  destruct (_ || _).
  - split; [repeat split|reflexivity].
  - destruct c1, c2;
      repeat match goal with
             | |- context [makeValidUtf8 ?a ?b] =>
                 destruct (makeValidUtf8 a b)
             | |- context [negb ?b] => destruct (negb b)
             end;
      (split; [repeat split|reflexivity]).
Qed.

Lemma sampling_loop_same_text E c1 c2 left :
  forall i st1 st2,
    same_text st1 st2 ->
    same_text (sampling_loop E c1 left i st1) (sampling_loop E c2 left i st2).
Proof.
  induction left as [|left IH]; intros i st1 st2 S; [exact S|]. simpl.
  destruct (should_stop_at E i); [exact S|].
  assert (S1 : same_text (sampled_one st1) (sampled_one st2)).
  { destruct S as (R & C & N). repeat split; simpl; congruence. }
  destruct (sample_at E i) as [| |piece decoded]; try exact S1.
  destruct (round_piece_same_text c1 c2 piece _ _ S1) as [S2 B].
  destruct (round_piece c1 piece (sampled_one st1)) as [st1' stop1].
  destruct (round_piece c2 piece (sampled_one st2)) as [st2' stop2].
  simpl in *. subst stop2.
  destruct stop1; [exact S2|]. destruct decoded; [|exact S2].
  now apply IH.
Qed.

Lemma round_piece_no_callback piece st :
  sink (fst (round_piece false piece st)) = sink st.
Proof. unfold round_piece. now destruct (_ || _). Qed.

Lemma sampling_loop_no_callback E left :
  forall i st, sink (sampling_loop E false left i st) = sink st.
Proof.
  induction left as [|left IH]; intros i st; [reflexivity|]. simpl.
  destruct (should_stop_at E i); [reflexivity|].
  destruct (sample_at E i) as [| |piece decoded]; try reflexivity.
  pose proof (round_piece_no_callback piece (sampled_one st)) as R.
  destruct (round_piece false piece (sampled_one st)) as [st' stop].
  simpl in R. destruct stop; [exact R|]. destruct decoded; [|exact R].
  now rewrite IH.
Qed.

(** X9: the callback has no part in what is generated: with or without
    it the call returns the same text, samples the same number of tokens
    and leaves the same globals; without it nothing is delivered. *)
Theorem callback_does_not_change_the_text E s maxTokens :
  returned (nativeGenerate E s maxTokens true)
  = returned (nativeGenerate E s maxTokens false) /\
  sampled_tokens (nativeGenerate E s maxTokens true)
  = sampled_tokens (nativeGenerate E s maxTokens false) /\
  after (nativeGenerate E s maxTokens true)
  = after (nativeGenerate E s maxTokens false) /\
  delivered (nativeGenerate E s maxTokens false) = [].
Proof.
  unfold nativeGenerate.
  destruct (negb (nativeIsModelLoaded s)); [repeat split|].
  destruct (llama_tokenize E <? 0)%Z; [repeat split|].
  destruct (negb _); [repeat split|].
  assert (I : same_text gen_init gen_init) by (repeat split).
  pose proof (sampling_loop_same_text E true false
                (Z.to_nat (max_gen maxTokens)) 0 _ _ I) as (R & _ & N).
  pose proof (sampling_loop_no_callback E (Z.to_nat (max_gen maxTokens)) 0
                gen_init) as K.
  unfold finish, flush_pending.
  cbn [andb returned delivered sampled_tokens after].
  rewrite R, N, K. repeat split.
Qed.

(** ** The text returned and the text sampled *)

Lemma sampled_text_succ E k :
  sampled_text E (S k) = sampled_text E k ++ piece_at E k.
Proof.
  unfold sampled_text. rewrite seq_S, map_app, concat_app. simpl.
  now rewrite app_nil_r.
Qed.

Lemma cut_at_last_prefix pat r : exists m, cut_at_last pat r = firstn m r.
Proof.
  unfold cut_at_last. destruct (Str.rfind pat r) as [pos|].
  - now exists pos.
  - exists (length r). symmetry. apply firstn_all.
Qed.

Lemma firstn_of_firstn (m n : nat) (l : bytes) :
  exists k, firstn m (firstn n l) = firstn k l.
Proof. exists (Nat.min m n). apply firstn_firstn. Qed.

(** A round appends its piece, or it stops and at most shortens the
    result. *)
Lemma round_piece_result callback piece st :
  let '(st', stop) := round_piece callback piece st in
  samples st' = samples st /\
  if stop then exists m, result st' = firstn m (result st)
  else result st' = result st ++ piece.
Proof.
  unfold round_piece.
  destruct (Str.contains im_end _) eqn:He, (Str.contains im_start _) eqn:Hs;
    cbn [orb].
  - split; [reflexivity|]. cbn [result].
    destruct (cut_at_last_prefix im_end (result st)) as [m1 ->].
    destruct (cut_at_last_prefix im_end_partial (firstn m1 (result st)))
      as [m2 ->].
    destruct (cut_at_last_prefix im_start (firstn m2 (firstn m1 (result st))))
      as [m3 ->].
    destruct (cut_at_last_prefix im_start_partial
                (firstn m3 (firstn m2 (firstn m1 (result st))))) as [m4 ->].
    rewrite !firstn_firstn. eauto.
  - split; [reflexivity|]. cbn [result].
    destruct (cut_at_last_prefix im_end (result st)) as [m1 ->].
    destruct (cut_at_last_prefix im_end_partial (firstn m1 (result st)))
      as [m2 ->].
    rewrite !firstn_firstn. eauto.
  - split; [reflexivity|]. cbn [result].
    destruct (cut_at_last_prefix im_start (result st)) as [m1 ->].
    destruct (cut_at_last_prefix im_start_partial (firstn m1 (result st)))
      as [m2 ->].
    rewrite !firstn_firstn. eauto.
  - destruct callback; [|now split].
    destruct (makeValidUtf8 _ _) as [valid_output buffer].
    destruct (negb _); now split.
Qed.

Lemma sampling_loop_result_prefix E callback left :
  forall i st,
    result st = sampled_text E i -> samples st = i ->
    exists k m,
      k <= samples (sampling_loop E callback left i st) /\
      result (sampling_loop E callback left i st)
      = firstn m (sampled_text E k).
Proof.
  induction left as [|left IH]; intros i st R N.
  - exists i, (length (sampled_text E i)). simpl.
    rewrite firstn_all. split; [lia | exact R].
  - simpl. destruct (should_stop_at E i).
    { exists i, (length (sampled_text E i)). rewrite firstn_all.
      split; [lia | exact R]. }
    destruct (sample_at E i) as [| |piece decoded] eqn:Sa;
      try (exists i, (length (sampled_text E i)); rewrite firstn_all;
           simpl; split; [lia | exact R]).
    pose proof (round_piece_result callback piece (sampled_one st)) as P.
    destruct (round_piece callback piece (sampled_one st)) as [st' stop].
    cbn [sampled_one result samples] in P. destruct P as [Ns P].
    destruct stop.
    + destruct P as [m P]. exists i, m. rewrite P, R. split; [lia|reflexivity].
    + assert (R' : result st' = sampled_text E (S i)).
      { rewrite P, R, sampled_text_succ. unfold piece_at. now rewrite Sa. }
      destruct decoded.
      * apply IH; [exact R' | lia].
      * exists (S i), (length (sampled_text E (S i))). rewrite firstn_all.
        split; [lia | exact R'].
Qed.

(** X10: on a loaded session whose prompt tokenizes and evaluates, the
    text returned is a prefix of the pieces of the first [k] tokens put
    end to end, for some [k] not above the number of tokens sampled:
    bytes are cut off the end, never added, changed or moved. *)
Theorem returned_text_is_a_prefix_of_the_pieces E s maxTokens callback :
  nativeIsModelLoaded s = true ->
  (0 <= llama_tokenize E)%Z ->
  prompt_decode E = 0%Z ->
  let o := nativeGenerate E s maxTokens callback in
  exists k m, k <= sampled_tokens o /\
              returned o = firstn m (sampled_text E k).
Proof.
  intros Hl Ht Hp. cbv zeta.
  rewrite (nativeGenerate_runs E s maxTokens callback Hl Ht Hp). cbv zeta.
  destruct (sampling_loop_result_prefix E callback
              (Z.to_nat (max_gen maxTokens)) 0 gen_init eq_refl eq_refl)
    as (k & m & Hk & R).
  exists k. unfold finish. cbn [returned sampled_tokens fst].
  rewrite R.
  destruct (c_str_firstn
              (fst (makeValidUtf8 (final_cleanup (firstn m (sampled_text E k)))
                      []))) as [a ->].
  destruct (makeValidUtf8_prefix (final_cleanup (firstn m (sampled_text E k)))
              []) as [b ->].
  cbn [app].
  destruct (final_cleanup_prefix
              (firstn m (sampled_text E k))) as [c ->].
  rewrite !firstn_firstn. eauto.
Qed.

Lemma returned_text_is_a_prefix_of_the_pieces_witness :
  exists k m,
    k <= sampled_tokens (nativeGenerate marker_in_two loaded_session 0 true) /\
    returned (nativeGenerate marker_in_two loaded_session 0 true)
    = firstn m (sampled_text marker_in_two k).
Proof.
  apply (returned_text_is_a_prefix_of_the_pieces marker_in_two loaded_session
           0 true); [reflexivity | simpl; lia | reflexivity].
Defined.

(** ** How the loop ends *)

Lemma sampling_loop_last_round E callback n :
  forall left i st,
    last_round E (i + n) = true -> n < left ->
    sampling_loop E callback left i st
    = sampling_loop E callback (S n) i st.
Proof.
  unfold last_round.
  induction n as [|n IH]; intros left i st L Hn.
  - rewrite Nat.add_0_r in L. destruct left as [|left]; [lia|]. simpl.
    destruct (should_stop_at E i); [reflexivity|].
    destruct (sample_at E i) as [| |piece decoded]; try reflexivity.
    destruct (round_piece _ _ _) as [st' stop].
    destruct stop; [reflexivity|]. destruct decoded; [discriminate|].
    reflexivity.
  - destruct left as [|left]; [lia|].
    change (sampling_loop E callback (S left) i st)
      with (if should_stop_at E i then st
            else let st0 := sampled_one st in
                 match sample_at E i with
                 | Eog => st0
                 | PieceFailed => st0
                 | Piece piece decoded =>
                     let '(st', stop) := round_piece callback piece st0 in
                     if stop then st'
                     else if decoded
                          then sampling_loop E callback left (S i) st'
                          else st'
                 end).
    change (sampling_loop E callback (S (S n)) i st)
      with (if should_stop_at E i then st
            else let st0 := sampled_one st in
                 match sample_at E i with
                 | Eog => st0
                 | PieceFailed => st0
                 | Piece piece decoded =>
                     let '(st', stop) := round_piece callback piece st0 in
                     if stop then st'
                     else if decoded
                          then sampling_loop E callback (S n) (S i) st'
                          else st'
                 end).
    destruct (should_stop_at E i); [reflexivity|]. cbv zeta.
    destruct (sample_at E i) as [| |piece decoded]; try reflexivity.
    destruct (round_piece _ _ _) as [st' stop].
    destruct stop; [reflexivity|]. destruct decoded; [|reflexivity].
    apply IH; [|lia]. now rewrite Nat.add_succ_comm.
Qed.

(** X11: a round whose token ends the generation, whose piece cannot be
    made or whose decode fails is the last one: whatever larger budget
    [maxTokens] gives, the call does what it does with the budget that
    ends at that round. *)
Theorem generation_ends_at_the_last_round E s maxTokens callback k :
  last_round E k = true ->
  (Z.of_nat k < maxTokens)%Z ->
  nativeGenerate E s maxTokens callback
  = nativeGenerate E s (Z.of_nat (S k)) callback.
Proof.
  intros L Hk. unfold nativeGenerate.
  destruct (negb (nativeIsModelLoaded s)); [reflexivity|].
  destruct (llama_tokenize E <? 0)%Z; [reflexivity|].
  destruct (negb _); [reflexivity|].
  assert (M1 : Z.to_nat (max_gen maxTokens) = Z.to_nat maxTokens).
  { unfold max_gen. destruct (Z.gtb_spec maxTokens 0); [reflexivity | lia]. }
  assert (M2 : Z.to_nat (max_gen (Z.of_nat (S k))) = S k).
  { unfold max_gen. destruct (Z.gtb_spec (Z.of_nat (S k)) 0); lia. }
  rewrite M1, M2.
  rewrite (sampling_loop_last_round E callback k (Z.to_nat maxTokens) 0
             gen_init L ltac:(lia)).
  reflexivity.
Qed.

Lemma generation_ends_at_the_last_round_witness :
  nativeGenerate failing_decode loaded_session 100 true
  = nativeGenerate failing_decode loaded_session (Z.of_nat 3) true.
Proof.
  apply (generation_ends_at_the_last_round failing_decode loaded_session
           100 true 2); [reflexivity | simpl; lia].
Defined.

(** X12: on a loaded session, a prompt that does not tokenize gives
    "[Error: Tokenization failed]" and one that does not evaluate gives
    "[Error: Prompt evaluation failed]"; either way no token is sampled,
    the callback is not called, the handles stay and the session is left
    not generating, with the stop flag down. *)
Theorem prompt_failures_are_reported E s maxTokens callback :
  nativeIsModelLoaded s = true ->
  ((llama_tokenize E < 0)%Z \/ prompt_decode E <> 0%Z) ->
  let o := nativeGenerate E s maxTokens callback in
  returned o = (if (llama_tokenize E <? 0)%Z then error_tokenization
                else error_prompt) /\
  sampled_tokens o = 0 /\ delivered o = [] /\
  after o = {| g_model := g_model s; g_ctx := g_ctx s;
               g_is_generating := false; g_should_stop := false |}.
Proof.
  intros Hl Hf. cbv zeta. unfold nativeGenerate. rewrite Hl. cbn [negb].
  destruct (Z.ltb_spec (llama_tokenize E) 0); [repeat split|].
  destruct Hf as [Hf|Hf]; [lia|].
  destruct (Z.eqb_spec (prompt_decode E) 0); [contradiction|].
  repeat split.
Qed.

Lemma prompt_failures_are_reported_witness :
  (returned (nativeGenerate untokenizable loaded_session 0 true)
   = error_tokenization /\
   sampled_tokens (nativeGenerate untokenizable loaded_session 0 true) = 0 /\
   delivered (nativeGenerate untokenizable loaded_session 0 true) = [] /\
   after (nativeGenerate untokenizable loaded_session 0 true)
   = loaded_session) /\
  (returned (nativeGenerate unevaluable loaded_session 0 true)
   = error_prompt /\
   sampled_tokens (nativeGenerate unevaluable loaded_session 0 true) = 0 /\
   delivered (nativeGenerate unevaluable loaded_session 0 true) = [] /\
   after (nativeGenerate unevaluable loaded_session 0 true)
   = loaded_session).
Proof.
  split.
  - apply (prompt_failures_are_reported untokenizable loaded_session 0 true);
      [reflexivity | left; simpl; lia].
  - apply (prompt_failures_are_reported unevaluable loaded_session 0 true);
      [reflexivity | right; simpl; discriminate].
Defined.

(** ** Calls of the callback *)

Lemma pending_count_le st : pending_count st <= 1.
Proof. unfold pending_count. destruct (Str.empty _); lia. Qed.

Lemma round_piece_sink_count callback piece st :
  length (sink (fst (round_piece callback piece st)))
  + pending_count (fst (round_piece callback piece st))
  <= S (length (sink st)).
Proof.
  unfold round_piece. destruct (_ || _).
  - cbn [fst sink]. unfold pending_count at 1. cbn [pending_output].
    pose proof (pending_count_le st) as P. unfold pending_count in P. lia.
  - destruct callback.
    + destruct (makeValidUtf8 _ _) as [valid_output buffer].
      destruct (negb _); cbn [fst sink].
      * unfold call_sink. rewrite length_app. cbn. lia.
      * match goal with |- _ + pending_count ?x <= _ =>
          pose proof (pending_count_le x) end. lia.
    + cbn [fst sink].
      match goal with |- _ + pending_count ?x <= _ =>
        pose proof (pending_count_le x) end. lia.
Qed.

Lemma sampling_loop_sink_count E callback left :
  forall i st,
    length (sink st) + pending_count st <= samples st ->
    length (sink (sampling_loop E callback left i st))
    + pending_count (sampling_loop E callback left i st)
    <= samples (sampling_loop E callback left i st).
Proof.
  induction left as [|left IH]; intros i st H; [exact H|]. simpl.
  destruct (should_stop_at E i); [exact H|].
  destruct (sample_at E i) as [| |piece decoded];
    try (unfold pending_count in *;
         cbn [sampled_one sink samples pending_output]; lia).
  pose proof (round_piece_sink_count callback piece (sampled_one st)) as C.
  pose proof (round_piece_samples callback piece (sampled_one st)) as N.
  destruct (round_piece callback piece (sampled_one st)) as [st' stop].
  cbn [fst sampled_one sink samples] in C, N.
  assert (H' : length (sink st') + pending_count st' <= samples st') by lia.
  destruct stop; [exact H'|]. destruct decoded; [|exact H'].
  now apply IH.
Qed.

(** X13: the callback is called at most once for each token sampled, the
    call after the loop included. *)
Theorem at_most_one_delivery_per_token E s maxTokens callback :
  length (delivered (nativeGenerate E s maxTokens callback))
  <= sampled_tokens (nativeGenerate E s maxTokens callback).
Proof.
  unfold nativeGenerate.
  destruct (negb (nativeIsModelLoaded s)); [simpl; lia|].
  destruct (llama_tokenize E <? 0)%Z; [simpl; lia|].
  destruct (negb _); [simpl; lia|].
  pose proof (sampling_loop_sink_count E callback
                (Z.to_nat (max_gen maxTokens)) 0 gen_init
                ltac:(unfold pending_count; simpl; lia)) as H.
  set (st := sampling_loop E callback (Z.to_nat (max_gen maxTokens)) 0
               gen_init) in *.
  unfold finish, flush_pending. cbn [delivered sampled_tokens].
  unfold pending_count in H.
  destruct callback; cbn [andb]; [|lia].
  destruct (Str.empty (pending_output st)); cbn [negb]; [lia|].
  destruct (negb _); [|lia].
  unfold call_sink. rewrite length_app. simpl. lia.
Qed.

(** ** Pieces that are well-formed on their own *)

Lemma c_str_no_nul s : no_nul s = true -> Str.c_str s = s.
Proof.
  induction s as [|c s IH]; [reflexivity|]. simpl.
  intros [P Q]%andb_prop. apply negb_true_iff in P.
  rewrite P, IH; [reflexivity | exact Q].
Qed.

Section CleanPieces.

Variable E : engine.

Hypothesis clean :
  forall i piece decoded,
    sample_at E i = Piece piece decoded ->
    well_formed_utf8 piece = true /\ no_nul piece = true.

Lemma sampling_loop_tidy left :
  forall i st,
    tidy E i st ->
    let st' := sampling_loop E true left i st in
    exists k,
      k <= samples st' /\ pending_output st' = [] /\
      concat (sink st') = sampled_text E k /\
      Forall (fun t => well_formed_utf8 t = true /\ t <> []) (sink st') /\
      exists m, result st' = firstn m (sampled_text E k).
Proof.
  induction left as [|left IH]; intros i st T; cbv zeta.
  - destruct T as (R & B & P & K & F & N). exists i. simpl.
    repeat split; try assumption; try lia.
    exists (length (sampled_text E i)). now rewrite firstn_all.
  - simpl.
    assert (Stay : forall st0 : gen_state,
               result st0 = result st -> pending_output st0 = pending_output st ->
               sink st0 = sink st -> i <= samples st0 ->
               exists k,
                 k <= samples st0 /\ pending_output st0 = [] /\
                 concat (sink st0) = sampled_text E k /\
                 Forall (fun t => well_formed_utf8 t = true /\ t <> [])
                   (sink st0) /\
                 exists m, result st0 = firstn m (sampled_text E k)).
    { intros st0 R0 P0 K0 N0. destruct T as (R & B & P & K & F & N).
      exists i. rewrite R0, P0, K0. repeat split; try assumption.
      exists (length (sampled_text E i)). now rewrite firstn_all. }
    destruct (should_stop_at E i).
    { apply Stay; try reflexivity. destruct T as (_ & _ & _ & _ & _ & N). lia. }
    destruct (sample_at E i) as [| |piece decoded] eqn:Sa;
      try (apply Stay; try reflexivity; destruct T as (_ & _ & _ & _ & _ & N);
           simpl; lia).
    destruct (clean i piece decoded Sa) as [W Z].
    destruct T as (R & B & P & K & F & N).
    unfold round_piece.
    cbn [sampled_one result recent_output utf8_buffer pending_output sink
         samples].
    rewrite B, P. cbn [app]. rewrite (makeValidUtf8_well_formed piece W).
    destruct (_ || _) eqn:Stop.
    + (* the round stops: the result is cut, nothing more is delivered *)
      exists i. cbn [result pending_output sink samples].
      repeat split; try assumption; try lia.
      pose proof (round_piece_result true piece (sampled_one st)) as Q.
      unfold round_piece in Q.
      cbn [sampled_one result recent_output utf8_buffer pending_output sink
           samples] in Q.
      rewrite Stop in Q. destruct Q as [_ [m Q]]. exists m.
      cbn [result] in Q. now rewrite Q, R.
    + assert (T' : forall st1 : gen_state,
                 result st1 = result st ++ piece ->
                 utf8_buffer st1 = [] -> pending_output st1 = [] ->
                 sink st1 = (if Str.empty piece then sink st
                             else sink st ++ [piece]) ->
                 samples st1 = S (samples st) ->
                 tidy E (S i) st1).
      { intros st1 R1 B1 P1 K1 N1. unfold tidy.
        rewrite R1, B1, P1, K1, N1, sampled_text_succ, R, N.
        unfold piece_at. rewrite Sa.
        repeat split; try reflexivity.
        - destruct piece; cbn [Str.empty];
            [now rewrite app_nil_r|].
          rewrite concat_app, K. simpl. now rewrite app_nil_r.
        - destruct piece; cbn [Str.empty]; [exact F|].
          apply Forall_app. split; [exact F|].
          constructor; [|constructor]. split; [exact W | discriminate]. }
      apply orb_false_elim in Stop as [S1 S2]. rewrite S1, S2 in *.
      destruct piece as [|c piece]; cbn [Str.empty negb].
      * match goal with |- context [sampling_loop E true left (S i) ?x] =>
          assert (Tx : tidy E (S i) x)
            by (apply T'; reflexivity) end.
        destruct decoded; [now apply IH|].
        destruct Tx as (R' & B' & P' & K' & F' & N').
        exists (S i). cbn [result pending_output sink samples] in *.
        repeat split; try assumption; try lia.
        exists (length (sampled_text E (S i))). now rewrite firstn_all.
      * unfold call_sink. rewrite (c_str_no_nul _ Z).
        match goal with |- context [sampling_loop E true left (S i) ?x] =>
          assert (Tx : tidy E (S i) x)
            by (apply T'; reflexivity) end.
        destruct decoded; [now apply IH|].
        destruct Tx as (R' & B' & P' & K' & F' & N').
        exists (S i). cbn [result pending_output sink samples] in *.
        repeat split; try assumption; try lia.
        exists (length (sampled_text E (S i))). now rewrite firstn_all.
Qed.

End CleanPieces.

(** X14: when every piece the engine gives is well-formed on its own and
    has no NUL byte, the callback gets, in order and whole, the pieces of
    the tokens before the one that ended the loop: the texts delivered,
    put end to end, are the pieces of the first [k] tokens, each text is
    well-formed and not empty, and the text returned is a prefix of the
    same. *)
Theorem well_formed_pieces_are_streamed_whole E s maxTokens :
  nativeIsModelLoaded s = true ->
  (0 <= llama_tokenize E)%Z ->
  prompt_decode E = 0%Z ->
  (forall i piece decoded,
      sample_at E i = Piece piece decoded ->
      well_formed_utf8 piece = true /\ no_nul piece = true) ->
  let o := nativeGenerate E s maxTokens true in
  exists k,
    k <= sampled_tokens o /\
    concat (delivered o) = sampled_text E k /\
    Forall (fun t => well_formed_utf8 t = true /\ t <> []) (delivered o) /\
    exists m, returned o = firstn m (sampled_text E k).
Proof.
  intros Hl Ht Hp Hc. cbv zeta.
  rewrite (nativeGenerate_runs E s maxTokens true Hl Ht Hp). cbv zeta.
  assert (I : tidy E 0 gen_init) by (repeat split; constructor).
  destruct (sampling_loop_tidy E Hc (Z.to_nat (max_gen maxTokens)) 0 gen_init I)
    as (k & Hk & P & K & F & m & R).
  exists k. unfold finish, flush_pending.
  cbn [returned delivered sampled_tokens fst snd]. rewrite P, R.
  cbn [Str.empty negb andb]. repeat split; try assumption.
  destruct (c_str_firstn
              (fst (makeValidUtf8 (final_cleanup (firstn m (sampled_text E k)))
                      []))) as [a ->].
  destruct (makeValidUtf8_prefix (final_cleanup (firstn m (sampled_text E k)))
              []) as [b ->].
  cbn [app].
  destruct (final_cleanup_prefix (firstn m (sampled_text E k))) as [c ->].
  rewrite !firstn_firstn. eauto.
Qed.

Lemma well_formed_pieces_are_streamed_whole_witness :
  exists k,
    k <= sampled_tokens
           (nativeGenerate
              (scripted [Piece (lit "Hi ") true; Piece [xc3; xa9] true;
                         Piece [xf0; x9f; x98; x80] true])
              loaded_session 0 true) /\
    concat (delivered
              (nativeGenerate
                 (scripted [Piece (lit "Hi ") true; Piece [xc3; xa9] true;
                            Piece [xf0; x9f; x98; x80] true])
                 loaded_session 0 true))
    = sampled_text
        (scripted [Piece (lit "Hi ") true; Piece [xc3; xa9] true;
                   Piece [xf0; x9f; x98; x80] true]) k /\
    Forall (fun t => well_formed_utf8 t = true /\ t <> [])
      (delivered
         (nativeGenerate
            (scripted [Piece (lit "Hi ") true; Piece [xc3; xa9] true;
                       Piece [xf0; x9f; x98; x80] true])
            loaded_session 0 true)) /\
    exists m,
      returned
        (nativeGenerate
           (scripted [Piece (lit "Hi ") true; Piece [xc3; xa9] true;
                      Piece [xf0; x9f; x98; x80] true])
           loaded_session 0 true)
      = firstn m
          (sampled_text
             (scripted [Piece (lit "Hi ") true; Piece [xc3; xa9] true;
                        Piece [xf0; x9f; x98; x80] true]) k).
Proof.
  apply (well_formed_pieces_are_streamed_whole
           (scripted [Piece (lit "Hi ") true; Piece [xc3; xa9] true;
                      Piece [xf0; x9f; x98; x80] true])
           loaded_session 0).
  - reflexivity.
  - simpl; lia.
  - reflexivity.
  - intros [|[|[|[|i]]]] piece decoded; simpl; intros [= <- <-] || intros [=];
      split; reflexivity.
Defined.

(** ** The window of 50 bytes *)

Lemma push_recent_last50 text piece :
  push_recent (last50 text) piece = last50 (text ++ piece).
Proof.
  unfold push_recent, last50, Str.substr_from.
  assert (E : skipn (length text - 50) text ++ piece
              = skipn (length text - 50) (text ++ piece)).
  { rewrite skipn_app.
    replace (length text - 50 - length text) with 0 by lia. reflexivity. }
  rewrite E, length_skipn, !length_app.
  destruct (Nat.ltb_spec 50
              (length text + length piece - (length text - 50))).
  - rewrite skipn_skipn. f_equal. lia.
  - f_equal. lia.
Qed.

(** A pattern completed by a short piece lies in the window. *)
Lemma completed_pattern_in_window pat text piece :
  Str.contains pat (text ++ piece) = true ->
  Str.contains pat text = false ->
  length piece + length pat <= 51 ->
  Str.contains pat (last50 (text ++ piece)) = true.
Proof.
  intros C N L. apply contains_spec in C as (pre & post & E).
  assert (Hp : length post < length piece).
  { destruct (Nat.lt_ge_cases (length post) (length piece)) as [H|H];
      [exact H | exfalso].
    apply (f_equal (@length byte)) in E as El.
    rewrite !length_app in El.
    rewrite contains_false in N.
    apply (N pre (firstn (length text - length pre - length pat) post)).
    assert (T : firstn (length text) (text ++ piece) = text).
    { rewrite firstn_app, firstn_all, Nat.sub_diag. simpl. apply app_nil_r. }
    rewrite E in T.
    rewrite firstn_app, firstn_all2 in T by lia.
    rewrite firstn_app, firstn_all2 in T by lia.
    symmetry. exact T. }
  apply contains_spec. unfold last50. rewrite E.
  exists (skipn (length (pre ++ pat ++ post) - 50) pre), post.
  rewrite skipn_app.
  replace (length (pre ++ pat ++ post) - 50 - length pre) with 0;
    [reflexivity|].
  rewrite !length_app. lia.
Qed.

Lemma round_piece_watch callback piece st :
  recent_output (fst (round_piece callback piece st))
  = push_recent (recent_output st) piece /\
  snd (round_piece callback piece st)
  = Str.contains im_end (push_recent (recent_output st) piece)
    || Str.contains im_start (push_recent (recent_output st) piece).
Proof.
  unfold round_piece. destruct (_ || _); [now split|].
  destruct callback; [|now split].
  destruct (makeValidUtf8 _ _) as [valid_output buffer].
  destruct (negb _); now split.
Qed.

Section Watching.

Variables (E : engine) (callback : bool) (k : nat).

Hypothesis short_pieces :
  forall i, i <= k ->
            exists piece decoded,
              sample_at E i = Piece piece decoded /\ length piece <= 39.

Hypothesis completed :
  Str.contains im_end (sampled_text E (S k)) = true \/
  Str.contains im_start (sampled_text E (S k)) = true.

Lemma sampling_loop_watch left :
  forall i st,
    watching E i st -> i <= S k ->
    samples (sampling_loop E callback left i st) <= S k.
Proof.
  induction left as [|left IH]; intros i st (Rc & Ne & Ns & N) Hi.
  - simpl. lia.
  - destruct (Nat.eq_dec i (S k)) as [->|Ne1].
    { exfalso. destruct completed; congruence. }
    simpl. destruct (should_stop_at E i); [lia|].
    destruct (short_pieces i ltac:(lia)) as (piece & decoded & Sa & Lp).
    rewrite Sa.
    pose proof (round_piece_watch callback piece (sampled_one st)) as [W1 W2].
    pose proof (round_piece_samples callback piece (sampled_one st)) as Sm.
    destruct (round_piece callback piece (sampled_one st)) as [st' stop].
    cbn [fst snd sampled_one recent_output samples] in W1, W2, Sm.
    destruct stop; [lia|]. destruct decoded; [|lia].
    symmetry in W2. apply orb_false_elim in W2 as [F1 F2].
    rewrite Rc, push_recent_last50 in *.
    apply IH; [|lia].
    assert (T : sampled_text E (S i) = sampled_text E i ++ piece).
    { rewrite sampled_text_succ. unfold piece_at. now rewrite Sa. }
    unfold watching. rewrite T. repeat split; [exact W1 | | | lia].
    + destruct (Str.contains im_end (sampled_text E i ++ piece)) eqn:C;
        [|reflexivity].
      pose proof (completed_pattern_in_window im_end _ _ C Ne
                    ltac:(simpl; lia)).
      congruence.
    + destruct (Str.contains im_start (sampled_text E i ++ piece)) eqn:C;
        [|reflexivity].
      pose proof (completed_pattern_in_window im_start _ _ C Ns
                    ltac:(simpl; lia)).
      congruence.
Qed.

End Watching.

(** X15: when the pieces of the tokens up to round [k] have at most 39
    bytes each and put end to end hold "<|im_end|>" or "<|im_start|>",
    however the marker is split over them, no token is sampled after
    round [k]: the loop has stopped in the round that completed the
    marker or before. *)
Theorem generation_stops_at_a_completed_marker E s maxTokens callback k :
  (forall i, i <= k ->
             exists piece decoded,
               sample_at E i = Piece piece decoded /\ length piece <= 39) ->
  (Str.contains im_end (sampled_text E (S k)) = true \/
   Str.contains im_start (sampled_text E (S k)) = true) ->
  sampled_tokens (nativeGenerate E s maxTokens callback) <= S k.
Proof.
  intros Hs Hc. unfold nativeGenerate.
  destruct (negb (nativeIsModelLoaded s)); [simpl; lia|].
  destruct (llama_tokenize E <? 0)%Z; [simpl; lia|].
  destruct (negb _); [simpl; lia|].
  destruct (finish _ _) as [text out]. cbn [sampled_tokens].
  apply (sampling_loop_watch E callback k Hs Hc); [|lia].
  repeat split.
Qed.

Lemma generation_stops_at_a_completed_marker_witness :
  sampled_tokens (nativeGenerate marker_in_two loaded_session 0 true) <= 2.
Proof.
  apply (generation_stops_at_a_completed_marker marker_in_two loaded_session
           0 true 1).
  - intros [|[|i]] Hi; [| |lia];
      eexists; eexists; (split; [reflexivity | simpl; lia]).
  - left. reflexivity.
Defined.

(** The other side of the window: a marker at the head of a piece of 51
    bytes is out of the last 50, and the loop goes on. *)
Lemma marker_behind_the_window :
  sampled_tokens
    (nativeGenerate
       (scripted [Piece (im_end ++ repeat x61 41) true; Piece (lit "b") true])
       loaded_session 0 false) = 3.
Proof. vm_compute. reflexivity. Qed.

(** ** Unloading *)

Lemma wait_while_generating_ends g n :
  forall fuel start,
    (forall j, j < n -> g (start + j) = true) -> g (start + n) = false ->
    n < fuel ->
    wait_while_generating g fuel start = Some (start + n).
Proof.
  induction n as [|n IH]; intros fuel start Hb He Hf;
    (destruct fuel as [|fuel]; [lia|]); simpl.
  - rewrite Nat.add_0_r in He. rewrite He. now rewrite Nat.add_0_r.
  - pose proof (Hb 0 ltac:(lia)) as H0. rewrite Nat.add_0_r in H0. rewrite H0.
    rewrite <- Nat.add_succ_comm. apply IH; [| |lia].
    + intros j Hj. rewrite Nat.add_succ_comm. apply Hb. lia.
    + now rewrite Nat.add_succ_comm.
Qed.

Lemma wait_while_generating_blocks g :
  (forall j, g j = true) ->
  forall fuel start, wait_while_generating g fuel start = None.
Proof.
  intros Hg. induction fuel as [|fuel IH]; intros start; simpl;
    [reflexivity|].
  now rewrite Hg.
Qed.

(** X16: an unload returns once a read of [g_is_generating] finds it
    down, after one sleep for each read that found it up; it has then
    freed the context before the model, cleared both handles and left the
    stop flag up.  While every read finds the flag up it does not
    return. *)
Theorem unload_waits_for_the_generation g fuel s n :
  (forall j, j < n -> g j = true) -> g n = false -> n < fuel ->
  nativeUnloadModel g fuel s
  = Some {| unload_after :=
              {| g_model := None; g_ctx := None;
                 g_is_generating := false; g_should_stop := true |};
            unload_released :=
              match g_ctx s with Some c => [llama_free c] | None => [] end
              ++ match g_model s with
                 | Some m => [llama_model_free m]
                 | None => []
                 end;
            unload_sleeps := n |} /\
  nativeUnloadModel (fun _ => true) fuel s = None.
Proof.
  intros Hb He Hf. unfold nativeUnloadModel. split.
  - rewrite (wait_while_generating_ends g n fuel 0); [reflexivity | | |];
      assumption.
  - now rewrite wait_while_generating_blocks.
Qed.

Lemma unload_waits_for_the_generation_witness :
  nativeUnloadModel (fun j => j <? 3) 10 loaded_session
  = Some {| unload_after :=
              {| g_model := None; g_ctx := None;
                 g_is_generating := false; g_should_stop := true |};
            unload_released := [llama_free 2%positive;
                                llama_model_free 1%positive];
            unload_sleeps := 3 |} /\
  nativeUnloadModel (fun _ => true) 10 loaded_session = None.
Proof.
  apply (unload_waits_for_the_generation (fun j => j <? 3) 10 loaded_session 3).
  - intros [|[|[|j]]] Hj; (reflexivity || lia).
  - reflexivity.
  - lia.
Defined.

(** X17: what an unload leaves: no model is loaded, a generation answers
    "[Error: No model loaded]" without sampling, the model information is
    "{}", the memory usage 0, and a second unload has nothing to free. *)
Theorem after_unload_nothing_is_loaded g fuel s o E F maxTokens callback :
  nativeUnloadModel g fuel s = Some o ->
  nativeIsModelLoaded (unload_after o) = false /\
  returned (nativeGenerate E (unload_after o) maxTokens callback)
  = error_no_model /\
  sampled_tokens (nativeGenerate E (unload_after o) maxTokens callback) = 0 /\
  nativeGetModelInfo F (unload_after o) = Some (lit "{}") /\
  nativeGetMemoryUsage F (unload_after o) = 0%Z /\
  option_map unload_released
    (nativeUnloadModel (fun _ => false) 1 (unload_after o)) = Some [].
Proof.
  unfold nativeUnloadModel.
  destruct (wait_while_generating g fuel 0); [|discriminate].
  intros [= <-]. repeat split.
Qed.

Lemma after_unload_nothing_is_loaded_witness :
  nativeIsModelLoaded
    {| g_model := None; g_ctx := None;
       g_is_generating := false; g_should_stop := true |} = false /\
  returned (nativeGenerate endless
              {| g_model := None; g_ctx := None;
                 g_is_generating := false; g_should_stop := true |} 0 true)
  = error_no_model /\
  sampled_tokens (nativeGenerate endless
                    {| g_model := None; g_ctx := None;
                       g_is_generating := false; g_should_stop := true |}
                    0 true) = 0 /\
  nativeGetModelInfo demo_facts
    {| g_model := None; g_ctx := None;
       g_is_generating := false; g_should_stop := true |} = Some (lit "{}") /\
  nativeGetMemoryUsage demo_facts
    {| g_model := None; g_ctx := None;
       g_is_generating := false; g_should_stop := true |} = 0%Z /\
  option_map unload_released
    (nativeUnloadModel (fun _ => false) 1
       {| g_model := None; g_ctx := None;
          g_is_generating := false; g_should_stop := true |}) = Some [].
Proof.
  exact (after_unload_nothing_is_loaded (fun _ => false) 1 loaded_session
           {| unload_after :=
                {| g_model := None; g_ctx := None;
                   g_is_generating := false; g_should_stop := true |};
              unload_released := [llama_free 2%positive;
                                  llama_model_free 1%positive];
              unload_sleeps := 0 |}
           endless demo_facts 0 true eq_refl).
Defined.

(** ** Calls made one after the other *)

Lemma nativeLoadModel_settles L s modelPath nCtx nThreads useGpu :
  g_is_generating s = false ->
  settled (load_after (nativeLoadModel L s modelPath nCtx nThreads useGpu)).
Proof.
  intros G. unfold nativeLoadModel, settled.
  destruct (llama_model_load_from_file _ _ _) as [model|];
    [destruct (llama_init_from_model _ _ _ _) as [ctx|]|];
    cbn [load_after with_handles g_is_generating g_model g_ctx];
    (split; [exact G | split; congruence]).
Qed.

Lemma nativeGenerate_settles E s maxTokens callback :
  settled s -> settled (after (nativeGenerate E s maxTokens callback)).
Proof.
  intros [G H]. unfold nativeGenerate, settled.
  destruct (negb (nativeIsModelLoaded s)); [now split|].
  destruct (llama_tokenize E <? 0)%Z; [now split|].
  destruct (negb _); [now split|].
  destruct (finish _ _) as [text out]. now split.
Qed.

Lemma after_call_settles c h :
  settled (now h) ->
  exists h', after_call c h = Some h' /\ settled (now h').
Proof.
  intros S. destruct c as [L modelPath nCtx nThreads useGpu| |E m cb|];
    cbn [after_call].
  - eexists. split; [reflexivity|]. cbn [now].
    apply nativeLoadModel_settles, S.
  - unfold nativeUnloadModel. cbn [wait_while_generating].
    destruct S as [-> _]. eexists. split; [reflexivity|].
    cbn [now unload_after]. split; [reflexivity | now split].
  - eexists. split; [reflexivity|]. cbn [now].
    now apply nativeGenerate_settles.
  - eexists. split; [reflexivity|]. cbn [now]. exact S.
Qed.

Lemma after_calls_settle cs :
  forall h, settled (now h) ->
            exists h', after_calls cs h = Some h' /\ settled (now h').
Proof.
  induction cs as [|c cs IH]; intros h S; cbn [after_calls].
  - now exists h.
  - destruct (after_call_settles c h S) as (h1 & -> & S1). now apply IH.
Qed.

(** X18: whatever loads, unloads, generations and stop requests are made
    one after the other on a fresh library, every call returns (the wait
    of an unload finds no generation running), and the globals are then
    settled: the session is not generating, and the model handle is null
    exactly when the context handle is. *)
Theorem calls_in_sequence_keep_the_session_settled cs :
  exists h,
    after_calls cs fresh = Some h /\
    g_is_generating (now h) = false /\
    (g_model (now h) = None <-> g_ctx (now h) = None).
Proof.
  destruct (after_calls_settle cs fresh) as (h & A & S).
  - split; [reflexivity | now split].
  - now exists h.
Qed.

(** X19: on the globals such calls leave, [nativeGetModelInfo] never
    hands a null context to [llama_n_ctx], which it does not check for:
    it returns a text, and with no model that text is "{}" and the memory
    usage is 0. *)
Theorem model_info_is_safe_after_any_calls cs F :
  exists h text,
    after_calls cs fresh = Some h /\
    nativeGetModelInfo F (now h) = Some text /\
    (nativeIsModelLoaded (now h) = true \/
     text = lit "{}" /\ nativeGetMemoryUsage F (now h) = 0%Z).
Proof.
  destruct (after_calls_settle cs fresh) as (h & A & _ & S).
  - split; [reflexivity | now split].
  - exists h. unfold nativeGetModelInfo, nativeIsModelLoaded,
      nativeGetMemoryUsage.
    destruct (g_model (now h)) as [m|] eqn:M.
    + destruct (g_ctx (now h)) as [c|] eqn:C.
      * eexists. split; [exact A|]. split; [reflexivity | now left].
      * destruct S as [_ S]. now specialize (S eq_refl).
    + destruct S as [S _]. rewrite (S eq_refl).
      eexists. split; [exact A|]. split; [reflexivity|]. right.
      split; reflexivity.
Qed.

(** What a load frees and gets balances what the globals hold. *)
Lemma nativeLoadModel_balance L s modelPath nCtx nThreads useGpu :
  Permutation
    (held s ++ load_obtained L modelPath nCtx nThreads useGpu)
    (map freed
       (load_released (nativeLoadModel L s modelPath nCtx nThreads useGpu))
     ++ held (load_after
                (nativeLoadModel L s modelPath nCtx nThreads useGpu))).
Proof.
  unfold nativeLoadModel, load_obtained, held.
  destruct (g_ctx s) as [c|], (g_model s) as [m|];
    (destruct (llama_model_load_from_file _ _ _) as [model|];
     [destruct (llama_init_from_model _ _ _ _) as [ctx|]|]);
    cbn; repeat apply perm_skip; try apply Permutation_refl;
    apply perm_swap.
Qed.

Lemma after_call_balance c h h' :
  after_call c h = Some h' ->
  Permutation (obtained h) (map freed (released h) ++ held (now h)) ->
  Permutation (obtained h') (map freed (released h') ++ held (now h')).
Proof.
  destruct c as [L modelPath nCtx nThreads useGpu| |E m cb|];
    cbn [after_call].
  - intros [= <-] P. cbn [obtained released now].
    rewrite map_app, <- app_assoc.
    rewrite <- (nativeLoadModel_balance L (now h) modelPath nCtx nThreads
                  useGpu).
    rewrite app_assoc. apply Permutation_app_tail. exact P.
  - unfold nativeUnloadModel.
    destruct (wait_while_generating _ _ _); [|discriminate].
    intros [= <-] P. cbn [obtained released now unload_after unload_released].
    rewrite P, map_app. unfold held at 2. cbn [g_model g_ctx app].
    rewrite app_nil_r. apply Permutation_app_head.
    unfold held. destruct (g_ctx (now h)), (g_model (now h)); reflexivity.
  - intros [= <-] P. cbn [obtained released now].
    replace (held (after (nativeGenerate E (now h) m cb))) with (held (now h));
      [exact P|].
    unfold nativeGenerate, held.
    destruct (negb (nativeIsModelLoaded (now h))); [reflexivity|].
    destruct (llama_tokenize E <? 0)%Z; [reflexivity|].
    destruct (negb _); [reflexivity|].
    destruct (finish _ _). reflexivity.
  - intros [= <-] P. exact P.
Qed.

(** X20: along any calls made one after the other on a fresh library,
    the models and contexts obtained from llama.cpp are, counted with
    repetition, those freed and those the globals still hold: nothing is
    freed twice or without having been obtained, and nothing obtained is
    dropped without being freed. *)
Theorem handles_are_freed_exactly_once cs :
  exists h,
    after_calls cs fresh = Some h /\
    Permutation (obtained h) (map freed (released h) ++ held (now h)).
Proof.
  assert (G : forall h0,
             settled (now h0) ->
             Permutation (obtained h0)
               (map freed (released h0) ++ held (now h0)) ->
             exists h,
               after_calls cs h0 = Some h /\
               Permutation (obtained h)
                 (map freed (released h) ++ held (now h))).
  { induction cs as [|c cs IH]; intros h0 S P; cbn [after_calls].
    - now exists h0.
    - destruct (after_call_settles c h0 S) as (h1 & A & S1). rewrite A.
      apply IH; [exact S1|]. exact (after_call_balance c h0 h1 A P). }
  apply G; [split; [reflexivity | now split]|]. reflexivity.
Qed.

(** ** Loading *)

Lemma sane_requests L nCtx nThreads useGpu :
  (0 < ctx_size nCtx)%Z /\ (1 <= thread_count L nThreads)%Z /\
  (n_gpu_layers useGpu = 0%Z \/ n_gpu_layers useGpu = 99%Z).
Proof.
  unfold ctx_size, thread_count, n_gpu_layers.
  destruct (Z.gtb_spec nCtx 0), (Z.gtb_spec nThreads 0), useGpu;
    repeat split; try lia; auto.
Qed.

(** X21: a load asks llama.cpp only for a positive context size (2048
    when [nCtx] is not positive), at least one thread (whatever the
    hardware reports, zero included) and 0 or 99 GPU layers: two engines
    that answer such requests alike give the same load. *)
Theorem load_makes_only_sane_requests
    L L' s modelPath nCtx nThreads useGpu :
  agree_on_sane_requests L L' ->
  nativeLoadModel L s modelPath nCtx nThreads useGpu
  = nativeLoadModel L' s modelPath nCtx nThreads useGpu.
Proof.
  intros (Hh & Hm & Hc).
  destruct (sane_requests L nCtx nThreads useGpu) as (C & T & G).
  unfold nativeLoadModel.
  rewrite <- (Hm modelPath _ G).
  destruct (llama_model_load_from_file L _ _) as [model|]; [|reflexivity].
  assert (Th : thread_count L' nThreads = thread_count L nThreads)
    by (unfold thread_count; now rewrite Hh).
  rewrite Th, <- (Hc model _ _ C T). reflexivity.
Qed.

Lemma load_makes_only_sane_requests_witness :
  nativeLoadModel good_loader empty_session (lit "m.gguf") (-4) 0 true
  = nativeLoadModel odd_loader empty_session (lit "m.gguf") (-4) 0 true.
Proof.
  apply (load_makes_only_sane_requests good_loader odd_loader).
  split; [reflexivity|]. split.
  - intros path layers [-> | ->]; reflexivity.
  - intros model n_ctx n_threads Hc Ht. simpl.
    destruct (Z.leb_spec n_ctx 0), (Z.leb_spec n_threads 0);
      try lia; reflexivity.
Defined.

(** X22: a load returns true exactly when a model is loaded afterwards;
    whatever it returns, it has freed the handles held before, context
    first, and it leaves the two flags as they were.  A load that fails
    therefore leaves no model, the one loaded before included. *)
Theorem load_result_tells_what_is_loaded L s modelPath nCtx nThreads useGpu :
  let o := nativeLoadModel L s modelPath nCtx nThreads useGpu in
  load_ret o = nativeIsModelLoaded (load_after o) /\
  firstn (length (held s)) (map freed (load_released o)) = held s /\
  g_is_generating (load_after o) = g_is_generating s /\
  g_should_stop (load_after o) = g_should_stop s /\
  (load_ret o = true \/
   g_model (load_after o) = None /\ g_ctx (load_after o) = None /\
   load_error o <> None).
Proof.
  cbv zeta. unfold nativeLoadModel, held.
  destruct (g_ctx s) as [c|], (g_model s) as [m|];
    (destruct (llama_model_load_from_file _ _ _) as [model|];
     [destruct (llama_init_from_model _ _ _ _) as [ctx|]|]);
    cbn; repeat split; auto; right; repeat split; discriminate.
Qed.
